(** * eca/sessions.py: session names, session registry, cookie filter and
      event ingress.

    A shallow embedding of [src/eca/sessions.py].  The module-level iterator
    [names], the [SessionManager] objects, the contexts they create and the
    process-wide current context are mutable state in the source; here they
    are threaded explicitly.  The standard-library collaborators
    ([random.shuffle], [time.time], [json.loads]) are the variables of the
    sections below, and what depends on the interpreter ([int] on long or
    underscored literals, the range of [ssize_t], the key test of
    [http.cookies]) is gathered in the record [python]. *)

From Stdlib Require Import ZArith String Ascii List Lia.
From stdpp Require Import gmap strings list fin_maps.

Set Warnings "-register-all".

Local Open Scope string_scope.
Local Open Scope list_scope.

(** ** Name generation *)

Module Names.

(** The two vocabularies of [name_parts], in source order. *)
Definition letters : list string :=
  ["alpha"; "beta"; "gamma"; "delta"; "epsilon"; "zeta"; "eta";
   "theta"; "iota"; "kappa"; "lambda"; "mu"; "nu"; "xi"; "omicron";
   "pi"; "rho"; "sigma"; "tau"; "upsilon"; "phi"; "chi"; "psi";
   "omega"].

Definition colours : list string :=
  ["red"; "orange"; "yellow"; "green"; "blue"; "violet"].

(** [parts] is a Python list whose slots hold references to the two list
    objects [letters] and [colours]; a slot is the object it aliases. *)
Inductive pool_ref : Type := Letters | Colours.

(** [itertools.product] applied to the unpacked [pools], after the
    equivalent code of the library documentation:
      result = [[]]
      for pool in pools: result = [x+[y] for x in result for y in pool] *)
Definition product_step {A} (result : list (list A)) (pool : list A)
  : list (list A) :=
  x ← result; (λ y, x ++ [y]) <$> pool.

Definition product {A} (pools : list (list A)) : list (list A) :=
  fold_left product_step pools [[]].

(** ['-'.join] *)
Definition join (t : list string) : string := String.concat "-" t.

Section Generator.

(** The hidden state of the [random] module and [random.shuffle], which
    permutes a list in place. *)
Variable rng : Type.
Variable shuffle : rng → list string → list string * rng.

(** The frame of the generator [name_parts]: its local list objects, the
    slots of [parts], and whether the body has run up to its first [yield]. *)
Record name_parts_state : Type := NamePartsState {
  np_started : bool;
  np_letters : list string;
  np_colours : list string;
  np_parts : list pool_ref;
  np_rng : rng
}.

Definition name_parts (g : rng) : name_parts_state :=
  NamePartsState false letters colours [] g.

(** One resumption of the generator, up to the next [yield parts]. *)
Definition name_parts_next (s : name_parts_state) : name_parts_state :=
  let '(l, g1) := shuffle (np_rng s) (np_letters s) in
  let '(c, g2) := shuffle g1 (np_colours s) in
  if np_started s
  then NamePartsState true l c (np_parts s ++ [Letters]) g2
  else NamePartsState true l c [Letters; Colours] g2.

(** What [product] receives from the unpacked [p]: each slot dereferenced
    when the call is made.  [product] copies its arguments into tuples, so
    later shuffles do not reach a product already built. *)
Definition deref (s : name_parts_state) (r : pool_ref) : list string :=
  match r with Letters => np_letters s | Colours => np_colours s end.

Definition pools (s : name_parts_state) : list (list string) :=
  deref s <$> np_parts s.

(** [chain.from_iterable] over the products of [name_parts()]: the generator
    and the tuples left in the product being consumed (none before the first
    draw). *)
Record names_state : Type := NamesState {
  ns_gen : name_parts_state;
  ns_cur : list (list string)
}.

Definition names_init (g : rng) : names_state :=
  NamesState (name_parts g) [].

(** [next] on the chain: take from the current product, or move on to the
    product of the next parts list.  The loop runs until a product yields;
    [fuel] bounds its iterations. *)
Fixpoint chain_next (fuel : nat) (st : names_state)
  : option (list string * names_state) :=
  match fuel with
  | O => None
  | S fuel' =>
      match ns_cur st with
      | t :: rest => Some (t, NamesState (ns_gen st) rest)
      | [] =>
          let s' := name_parts_next (ns_gen st) in
          chain_next fuel' (NamesState s' (product (pools s')))
      end
  end.

(** [next(names)], with [names = map('-'.join, chain...)]. *)
Definition names_next (fuel : nat) (st : names_state)
  : option (string * names_state) :=
  match chain_next fuel st with
  | Some (t, st') => Some (join t, st')
  | None => None
  end.

(** [n] successive calls of [next(names)]. *)
Fixpoint draw (fuel n : nat) (st : names_state)
  : option (list string * names_state) :=
  match n with
  | O => Some ([], st)
  | S n' =>
      match names_next fuel st with
      | Some (x, st1) =>
          match draw fuel n' st1 with
          | Some (xs, st2) => Some (x :: xs, st2)
          | None => None
          end
      | None => None
      end
  end.

(** The generator after [k] resumptions, and the tuples of stage [k]: the
    product built from the parts list of the [k+1]-th [yield]. *)
Definition gen_at (g : rng) (k : nat) : name_parts_state :=
  Nat.iter k name_parts_next (name_parts g).

Definition stage (g : rng) (k : nat) : list (list string) :=
  product (pools (gen_at g (S k))).

(** The states [names] can be in: the initial one and those that calls of
    [next(names)] lead to. *)
Inductive reachable (g : rng) : names_state → Prop :=
  | reachable_init : reachable g (names_init g)
  | reachable_next fuel st x st' :
      reachable g st → names_next fuel st = Some (x, st') → reachable g st'.

End Generator.

Arguments NamePartsState {rng}.
Arguments NamesState {rng}.
Arguments np_started {rng}.
Arguments np_letters {rng}.
Arguments np_colours {rng}.
Arguments np_parts {rng}.
Arguments np_rng {rng}.
Arguments ns_gen {rng}.
Arguments ns_cur {rng}.
Arguments name_parts {rng}.
Arguments name_parts_next {rng}.
Arguments deref {rng}.
Arguments pools {rng}.
Arguments names_init {rng}.
Arguments chain_next {rng}.
Arguments names_next {rng}.
Arguments draw {rng}.
Arguments gen_at {rng}.
Arguments stage {rng}.
Arguments reachable {rng}.

End Names.


(** ** Values shared by the classes *)

(** The exceptions the module can let escape. *)
Inductive exn : Type :=
  | ValueError
  | KeyError
  | OverflowError
  | RecursionError
  | CookieError.

(** How a call ends: it returns, it raises, or the bound on loop iterations
    ran out before it did either. *)
Inductive result (A : Type) : Type :=
  | Ok (a : A)
  | Raise (e : exn)
  | OutOfFuel.
Arguments Ok {A}.
Arguments Raise {A}.
Arguments OutOfFuel {A}.

Definition result_bind {A B} (r : result A) (k : A → result B) : result B :=
  match r with
  | Ok a => k a
  | Raise e => Raise e
  | OutOfFuel => OutOfFuel
  end.

(** What [json.loads] can return.  Numbers keep their literal text: the
    module only looks at the kind of the top-level value. *)
Inductive json : Type :=
  | JNull
  | JBool (b : bool)
  | JNumber (literal : string)
  | JString (s : string)
  | JArray (items : list json)
  | JObject (members : list (string * json)).

(** What [json.loads(data.decode('utf-8'))] does: it returns a value, it
    raises a [ValueError] (the bytes are not UTF-8, or the text is not JSON;
    [message] is the text of the exception), or, on a document nested too
    deep for the interpreter's stack, it raises [RecursionError]. *)
Inductive loaded : Type :=
  | Loaded (structured : json)
  | LoadError (message : string)
  | LoadRecursion.

(** [isinstance(structured, Mapping)]: of the values [json.loads] returns
    only a [dict] is a mapping. *)
Definition is_mapping (j : json) : bool :=
  match j with JObject _ => true | _ => false end.

(** Modelled from the spec: the class [Context] of the package ([eca/__init__.py]
    is not among the sources).  A context is constructed for an identifier,
    can be started, and receives the events fired while it is current. *)
Record Context : Type := MkContext {
  ctx_name : string;
  ctx_started : bool;
  ctx_events : list (string * json)
}.

(** Modelled from the spec: what [start()] and the delivery of an event
    leave in a context.  The list of events is the model's record of what
    [new_event] has handed over. *)
Definition ctx_start (c : Context) : Context :=
  MkContext (ctx_name c) true (ctx_events c).

Definition ctx_receive (ev : string * json) (c : Context) : Context :=
  MkContext (ctx_name c) (ctx_started c) (ctx_events c ++ [ev]).

(** The state of the process outside the manager objects: the module-level
    iterator [names], the [Context] objects allocated so far (a context is
    referred to by its index), the current-context pointer of the package,
    and the number of times the clock has been read. *)
Record process (rng : Type) : Type := Process {
  p_names : Names.names_state rng;
  p_contexts : list Context;
  p_current : option nat;
  p_ticks : nat
}.
Arguments Process {rng}.
Arguments p_names {rng}.
Arguments p_contexts {rng}.
Arguments p_current {rng}.
Arguments p_ticks {rng}.

Definition set_names {rng} (st : Names.names_state rng) (p : process rng)
  : process rng :=
  Process st (p_contexts p) (p_current p) (p_ticks p).

(** Modelled from the spec: [Context(name)] allocates a context keyed by
    [name] and returns a handle to it. *)
Definition Context_new {rng} (name : string) (p : process rng)
  : nat * process rng :=
  (length (p_contexts p),
   Process (p_names p) (p_contexts p ++ [MkContext name false []])
           (p_current p) (p_ticks p)).

(** Modelled from the spec: [context.start()]. *)
Definition Context_start {rng} (h : nat) (p : process rng) : process rng :=
  Process (p_names p) (alter ctx_start h (p_contexts p))
          (p_current p) (p_ticks p).

(** Modelled from the spec: [context_activate(context)] makes the context
    the current one of the process. *)
Definition context_activate {rng} (h : nat) (p : process rng) : process rng :=
  Process (p_names p) (p_contexts p) (Some h) (p_ticks p).

(** Modelled from the spec: [new_event(name, data)] hands the event to the
    current context, and fails with the no-current-context condition when no
    context has been activated: [None] stands for the [NotImplementedError]
    the handler catches. *)
Definition new_event {rng} (name : string) (data : json) (p : process rng)
  : option (process rng) :=
  match p_current p with
  | None => None
  | Some h =>
      Some (Process (p_names p)
                    (alter (ctx_receive (name, data)) h (p_contexts p))
                    (p_current p) (p_ticks p))
  end.

(** ** The request object of the HTTP layer *)

(** A cookie of the request's jar: its value and its [path] attribute
    (empty when unset).  The jar maps cookie names to morsels; the test
    [http.cookies] puts a key to is [cookie_key_ok] below, and its quoting of
    values is left to that library. *)
Record Morsel : Type := MkMorsel {
  m_value : string;
  m_path : string
}.

Inductive header_value : Type :=
  | HStr (s : string)
  | HInt (z : Z).

(** What a filter or handler asks the request object to send. *)
Inductive action : Type :=
  | SendError (code : Z) (message : option string)
  | SendResponse (code : Z)
  | SendHeader (name : string) (value : header_value)
  | EndHeaders.

Record request : Type := Request {
  headers : list (string * string);
  cookies : gmap string Morsel;
  rfile : list Byte.byte;
  sent : list action
}.

Definition send (a : action) (req : request) : request :=
  Request (headers req) (cookies req) (rfile req) (sent req ++ [a]).

Definition set_cookies (c : gmap string Morsel) (req : request) : request :=
  Request (headers req) c (rfile req) (sent req).

Definition set_rfile (f : list Byte.byte) (req : request) : request :=
  Request (headers req) (cookies req) f (sent req).

(** Header names compare without regard to case. *)
Definition lower_ascii (c : ascii) : ascii :=
  let n := nat_of_ascii c in
  if (65 <=? n)%nat && (n <=? 90)%nat then ascii_of_nat (n + 32) else c.

Fixpoint lower (s : string) : string :=
  match s with
  | EmptyString => EmptyString
  | String c s' => String (lower_ascii c) (lower s')
  end.

(** [headers[key]], [None] when [key not in headers]. *)
Fixpoint header_get (key : string) (hs : list (string * string))
  : option string :=
  match hs with
  | [] => None
  | (k, v) :: hs' =>
      if String.eqb (lower k) (lower key) then Some v else header_get key hs'
  end.

(** [morsel.output(header='')] for a value that needs no quoting, as every
    generated name is: an empty header, a space, [key=value] and the path
    attribute. *)
Definition morsel_output (key : string) (m : Morsel) : string :=
  " " +:+ key +:+ "=" +:+ m_value m +:+
  (if String.eqb (m_path m) "" then "" else "; Path=" +:+ m_path m).

(** What the module's behaviour takes from the Python installation it runs
    on: whether [int] accepts underscores between digits (3.6 and later);
    the limit on the digits of a literal that [int] converts
    ([sys.int_max_str_digits], 0 when there is none); the largest [ssize_t]
    ([sys.maxsize]); and the test [http.cookies] puts a cookie name to before
    it stores a value under it (legal characters only, and not the name of a
    cookie attribute). *)
Record python : Type := Python {
  int_underscores : bool;
  int_max_str_digits : nat;
  ssize_t_max : Z;
  cookie_key_ok : string → bool
}.

(** [int(s)] on a header value.  A character is one of the code points
    0..255 of a header decoded as ISO-8859-1.  Surrounding white space is
    dropped (the ASCII white space, and the two other spaces U+0085 and
    U+00A0, which [int] turns into blanks first); a sign may lead; decimal
    digits follow, single underscores allowed between digits where the
    interpreter has them; a literal of more digits than the interpreter's
    limit is refused.  [None] stands for the [ValueError]. *)
Definition is_space (c : ascii) : bool :=
  let n := nat_of_ascii c in
  ((9 <=? n)%nat && (n <=? 13)%nat) || (n =? 32)%nat
  || (n =? 133)%nat || (n =? 160)%nat.

Fixpoint lstrip (s : string) : string :=
  match s with
  | String c s' => if is_space c then lstrip s' else s
  | EmptyString => EmptyString
  end.

Fixpoint rstrip (s : string) : string :=
  match s with
  | EmptyString => EmptyString
  | String c s' =>
      match rstrip s' with
      | EmptyString => if is_space c then EmptyString else String c EmptyString
      | r => String c r
      end
  end.

Definition digit_of (c : ascii) : option Z :=
  let n := nat_of_ascii c in
  if (48 <=? n)%nat && (n <=? 57)%nat then Some (Z.of_nat (n - 48)) else None.

Fixpoint int_digits (underscores : bool) (acc : Z) (after_digit : bool)
    (s : string) : option Z :=
  match s with
  | EmptyString => if after_digit then Some acc else None
  | String c s' =>
      if Ascii.eqb c "_"%char
      then (if underscores && after_digit
            then int_digits underscores acc false s' else None)
      else match digit_of c with
           | Some d => int_digits underscores (10 * acc + d) true s'
           | None => None
           end
  end.

Fixpoint count_digits (s : string) : nat :=
  match s with
  | EmptyString => 0
  | String c s' =>
      (match digit_of c with Some _ => 1 | None => 0 end) + count_digits s'
  end.

(** The limit applies to literals of more than 640 digits, when it is set. *)
Definition too_many_digits (py : python) (s : string) : bool :=
  let d := count_digits s in
  (640 <? d)%nat && (0 <? int_max_str_digits py)%nat
  && (int_max_str_digits py <? d)%nat.

Definition int_body (py : python) (s : string) : option Z :=
  if too_many_digits py s then None
  else int_digits (int_underscores py) 0 false s.

Definition py_int (py : python) (s : string) : option Z :=
  match lstrip (rstrip s) with
  | String c r =>
      if Ascii.eqb c "+"%char then int_body py r
      else if Ascii.eqb c "-"%char then Z.opp <$> int_body py r
      else int_body py (String c r)
  | EmptyString => int_body py EmptyString
  end.

(** A character no literal of [int] holds: neither a digit, an underscore or
    a sign, nor white space. *)
Definition junk (c : ascii) : bool :=
  negb (is_space c || Ascii.eqb c "+"%char || Ascii.eqb c "-"%char
        || Ascii.eqb c "_"%char
        || match digit_of c with Some _ => true | None => false end).

Fixpoint has_junk (s : string) : bool :=
  match s with
  | EmptyString => false
  | String c s' => junk c || has_junk s'
  end.

(** [rfile.read(n)] on the buffered reader of the request.  An [n] that
    does not fit [ssize_t] is an [OverflowError]; otherwise up to [n] bytes
    for [n >= 0] (what the stream has, when it has fewer), everything for
    [-1], and a [ValueError] for a smaller [n].  Returns the data and what
    is left of the stream. *)
Definition rfile_read (py : python) (n : Z) (f : list Byte.byte)
  : exn + (list Byte.byte * list Byte.byte) :=
  if (ssize_t_max py <? n)%Z || (n <? - ssize_t_max py - 1)%Z
  then inl OverflowError
  else if (0 <=? n)%Z then inr (take (Z.to_nat n) f, drop (Z.to_nat n) f)
  else if (n =? -1)%Z then inr (f, [])
  else inl ValueError.

(** ** class Session *)

Module Session.

Record t : Type := Make {
  context : nat;
  seen : Z
}.

Section Clock.

(** [time.time()]: [clock n] is what the [n]-th reading of the process
    returns. *)
Variable clock : nat → Z.
Context {rng : Type}.

Definition time_time (p : process rng) : Z * process rng :=
  (clock (p_ticks p),
   Process (p_names p) (p_contexts p) (p_current p) (S (p_ticks p))).

(** [Session.activate]: the object after the call and the process. *)
Definition activate (self : t) (p : process rng) : t * process rng :=
  let '(now, p1) := time_time p in
  (Make (context self) now, context_activate (context self) p1).

End Clock.

End Session.

(** ** class SessionManager *)

Module SessionManager.

Record t : Type := Make {
  sessions : gmap string Session.t;
  cookie : string
}.

(** [SessionManager(cookie_name)] *)
Definition __init__ (cookie_name : string) : t := Make ∅ cookie_name.

Definition set_sessions (m : gmap string Session.t) (self : t) : t :=
  Make m (cookie self).

Section Methods.

Context {rng : Type}.
Variable shuffle : rng → list string → list string * rng.
Variable clock : nat → Z.

(** The loop [while result in self.sessions: result = next(names)];
    [fuel] bounds its iterations and [gas] those of each [next]. *)
Fixpoint redraw (gas fuel : nat) (self : t) (result0 : string)
    (st : Names.names_state rng) : result (string * Names.names_state rng) :=
  if decide (is_Some (sessions self !! result0)) then
    match fuel with
    | O => OutOfFuel
    | S fuel' =>
        match Names.names_next shuffle gas st with
        | Some (r, st') => redraw gas fuel' self r st'
        | None => OutOfFuel
        end
    end
  else Ok (result0, st).

Definition generate_name (fuel : nat) (self : t) (p : process rng)
  : result (string * t * process rng) :=
  match Names.names_next shuffle fuel (p_names p) with
  | Some (r, st) =>
      result_bind (redraw fuel fuel self r st)
        (λ '(r', st'), Ok (r', self, set_names st' p))
  | None => OutOfFuel
  end.

Definition _new_session (name : string) (p : process rng)
  : Session.t * process rng :=
  let '(h, p1) := Context_new name p in
  let '(now, p2) := Session.time_time clock p1 in
  (Session.Make h now, Context_start h p2).

Definition activate (name : string) (self : t) (p : process rng)
  : result (t * process rng) :=
  let '(self1, p1) :=
    if decide (sessions self !! name = None)
    then let '(s, p') := _new_session name p in
         (set_sessions (<[name := s]> (sessions self)) self, p')
    else (self, p) in
  match sessions self1 !! name with
  | Some s =>
      let '(s', p2) := Session.activate clock s p1 in
      Ok (set_sessions (<[name := s']> (sessions self1)) self1, p2)
  | None => Raise KeyError
  end.

End Methods.

End SessionManager.

(** ** class SessionCookie *)

Module SessionCookie.

Section Filter.

Context {rng : Type}.
Variable shuffle : rng → list string → list string * rng.
Variable clock : nat → Z.
Variable py : python.

(** [SessionCookie.handle], with [manager] the object bound to the filter.
    A morsel found in the jar is truthy whatever its value.  The assignment
    [cookies[name] = value] raises [CookieError] when the jar refuses the
    name as a key; by then the new name has been drawn. *)
Definition handle (fuel : nat) (req : request) (manager : SessionManager.t)
    (p : process rng) : result (request * SessionManager.t * process rng) :=
  let name := SessionManager.cookie manager in
  match cookies req !! name with
  | None =>
      result_bind (SessionManager.generate_name shuffle fuel manager p)
        (λ '(value, manager1, p1),
          if cookie_key_ok py name then
            let jar1 := <[name := MkMorsel value ""]> (cookies req) in
            let jar2 := alter (λ m, MkMorsel (m_value m) "/") name jar1 in
            match jar2 !! name with
            | Some m =>
                let req1 :=
                  send (SendHeader "Set-Cookie" (HStr (morsel_output name m)))
                       (set_cookies jar2 req) in
                result_bind (SessionManager.activate clock value manager1 p1)
                  (λ '(manager2, p2), Ok (req1, manager2, p2))
            | None => Raise KeyError
            end
          else Raise CookieError)
  | Some morsel =>
      result_bind (SessionManager.activate clock (m_value morsel) manager p)
        (λ '(manager1, p1), Ok (req, manager1, p1))
  end.

End Filter.

End SessionCookie.

(** ** GenerateEvent(name).EventHandler *)

Module EventHandler.

Section Handler.

Context {rng : Type}.
Variable py : python.

(** [json.loads(data.decode('utf-8'))] *)
Variable loads : list Byte.byte → loaded.

(** [handle_POST] of the handler class [GenerateEvent(name)] returns: the
    request object, the process, and the exception that escaped, if any.
    Only the decoder's [ValueError] and the dispatcher's no-current-context
    failure are caught. *)
Definition handle_POST (name : string) (req : request) (p : process rng)
  : request * process rng * option exn :=
  match header_get "content-length" (headers req) with
  | None => (send (SendError 411 None) req, p, None)
  | Some v =>
      match py_int py v with
      | None => (req, p, Some ValueError)
      | Some length =>
          match rfile_read py length (rfile req) with
          | inl e => (req, p, Some e)
          | inr (data, rest) =>
              let req1 := set_rfile rest req in
              match loads data with
              | LoadError e =>
                  (send (SendError 400 (Some ("Bad request: " +:+ e))) req1,
                   p, None)
              | LoadRecursion => (req1, p, Some RecursionError)
              | Loaded structured =>
                  if negb (is_mapping structured) then
                    (send (SendError 400
                             (Some "Bad request: expect a JSON object")) req1,
                     p, None)
                  else
                    match new_event name structured p with
                    | Some p' =>
                        (send EndHeaders
                           (send (SendHeader "content-length" (HInt 0))
                              (send (SendHeader "content-type"
                                       (HStr "text/plain; charset=utf-8"))
                                 (send (SendResponse 202) req1))),
                         p', None)
                    | None =>
                        (send (SendError 500
                                 (Some "No current context available.")) req1,
                         p, None)
                    end
              end
          end
      end
  end.

(** The status line the handler has had sent, if any. *)
Fixpoint status_of (acts : list action) : option Z :=
  match acts with
  | [] => None
  | SendError code _ :: _ => Some code
  | SendResponse code :: _ => Some code
  | _ :: acts' => status_of acts'
  end.

End Handler.

End EventHandler.

(** ** Clients of a manager *)

(** What the rest of the process can do with a manager and with [names]:
    ask for a name, activate an identifier of its choice, or draw from the
    module-level iterator itself (as another manager's [generate_name]
    does). *)
Inductive call : Type :=
  | GenerateName
  | Activate (name : string)
  | NextName.

Section Client.

Context {rng : Type}.
Variable shuffle : rng → list string → list string * rng.
Variable clock : nat → Z.

(** Runs the calls in order; returns the results of the [GenerateName]
    calls, oldest first. *)
Fixpoint run (fuel : nat) (cs : list call) (self : SessionManager.t)
    (p : process rng) : result (list string * SessionManager.t * process rng) :=
  match cs with
  | [] => Ok ([], self, p)
  | GenerateName :: cs' =>
      result_bind (SessionManager.generate_name shuffle fuel self p)
        (λ '(r, self1, p1),
          result_bind (run fuel cs' self1 p1)
            (λ '(rs, self2, p2), Ok (r :: rs, self2, p2)))
  | Activate name :: cs' =>
      result_bind (SessionManager.activate clock name self p)
        (λ '(self1, p1), run fuel cs' self1 p1)
  | NextName :: cs' =>
      match Names.names_next shuffle fuel (p_names p) with
      | Some (_, st) => run fuel cs' self (set_names st p)
      | None => OutOfFuel
      end
  end.

End Client.

(** How many of the calls ask for a name. *)
Fixpoint generate_calls (cs : list call) : nat :=
  match cs with
  | [] => 0
  | GenerateName :: cs' => S (generate_calls cs')
  | _ :: cs' => generate_calls cs'
  end.

(** ** Reading names back *)

(** [name.split('-')] *)
Fixpoint split_dash (s : string) : list string :=
  match s with
  | EmptyString => [EmptyString]
  | String c s' =>
      if Ascii.eqb c "-"%char then EmptyString :: split_dash s'
      else match split_dash s' with
           | w :: ws => String c w :: ws
           | [] => [String c EmptyString]
           end
  end.

(** ['-' not in word] *)
Fixpoint no_dash (s : string) : bool :=
  match s with
  | EmptyString => true
  | String c s' => negb (Ascii.eqb c "-"%char) && no_dash s'
  end.

(** The [n]-th product the chain works through, counting the empty start
    as number 0: stage [k] is product number [k+1]. *)
Definition handed {rng} (shuffle : rng → list string → list string * rng)
    (g : rng) (n : nat) : list (list string) :=
  match n with
  | O => []
  | S k => Names.stage shuffle g k
  end.

(** [history shuffle g drawn st]: [st] is the state of [names] once the
    tuples [drawn] have been taken from it, oldest first: whole stages, then
    the consumed part [pre] of the product in progress. *)
Definition history {rng} (shuffle : rng → list string → list string * rng)
    (g : rng) (drawn : list (list string)) (st : Names.names_state rng) : Prop :=
  ∃ n pre,
    Names.ns_gen st = Names.gen_at shuffle g n ∧
    handed shuffle g n = pre ++ Names.ns_cur st ∧
    drawn = (seq 0 n ≫= handed shuffle g) ++ pre.

(** ** Concrete collaborators, for running the model *)

Module Demo.

(** A shuffle that rotates by a counter kept as the generator's state. *)
Definition shuffle (g : nat) (l : list string) : list string * nat :=
  (rotate g l, S g).

(** A shuffle that happens to leave every list as it is. *)
Definition keep (g : unit) (l : list string) : list string * unit := (l, g).

(** A clock that advances by one at each reading. *)
Definition clock (n : nat) : Z := Z.of_nat n.

(** A decoder that knows two documents, and gives up on a body of opening
    brackets only. *)
Definition loads (data : list Byte.byte) : loaded :=
  let s := string_of_list_byte data in
  if String.eqb s "{}" then Loaded (JObject [])
  else if String.eqb s "[1,2,3]"
       then Loaded (JArray [JNumber "1"; JNumber "2"; JNumber "3"])
       else if String.eqb s "[[[[" then LoadRecursion
            else LoadError "Expecting value".

(** The key test of [http.cookies]: a name made of its legal characters
    that is not the name of a cookie attribute. *)
Definition legal_char (c : ascii) : bool :=
  let n := nat_of_ascii c in
  ((48 <=? n)%nat && (n <=? 57)%nat) || ((65 <=? n)%nat && (n <=? 90)%nat)
  || ((97 <=? n)%nat && (n <=? 122)%nat)
  || existsb (Ascii.eqb c) (list_ascii_of_string "!#$%&'*+-.^_`|~:").

Definition reserved : list string :=
  ["expires"; "path"; "comment"; "domain"; "max-age"; "secure"; "httponly";
   "version"; "samesite"].

Definition legal_key (key : string) : bool :=
  negb (existsb (String.eqb (lower key)) reserved)
  && negb (String.eqb key "")
  && forallb legal_char (list_ascii_of_string key).

(** A 64-bit CPython with the digit limit at its default. *)
Definition cpython : python := Python true 4300 (2 ^ 63 - 1) legal_key.

Definition process0 : process nat :=
  Process (Names.names_init 0%nat) [] None 0.

Definition manager0 : SessionManager.t := SessionManager.__init__ "session".

(** A manager set up with a cookie name that holds a blank. *)
Definition manager_blank : SessionManager.t :=
  SessionManager.__init__ "my cookie".

(** A manager that already holds the first name [names] will produce, and
    a process in which that session has been activated. *)
Definition manager1 : SessionManager.t :=
  SessionManager.Make {[ "alpha-orange" := Session.Make 0 1 ]} "session".

Definition process1 : process nat :=
  Process (Names.names_init 0%nat) [MkContext "alpha-orange" true []]
          (Some 0%nat) 2.

Definition request0 : request := Request [] ∅ [] [].

Definition post (length : string) (body : string) : request :=
  Request [("Content-Length", length)] ∅ (list_byte_of_string body) [].

End Demo.

(** ** Requests in sequence *)

(** What reaches the session code while the process runs: a request that
    passes the cookie filter, a POST that reaches an event handler, or a
    direct call as in [call]. *)
Inductive step : Type :=
  | Filtered (req : request)
  | Posted (event : string) (req : request)
  | Called (c : call).

Section Server.

Context {rng : Type}.
Variable shuffle : rng → list string → list string * rng.
Variable clock : nat → Z.
Variable py : python.
Variable loads : list Byte.byte → loaded.

(** One step on the manager and the process.  What a request object holds
    afterwards goes back to its client and is dropped here; an exception that
    escapes a filter or a handler is the outcome of the step. *)
Definition serve_step (fuel : nat) (s : step) (self : SessionManager.t)
    (p : process rng) : result (SessionManager.t * process rng) :=
  match s with
  | Filtered req =>
      result_bind (SessionCookie.handle shuffle clock py fuel req self p)
        (λ '(_, self', p'), Ok (self', p'))
  | Posted event req =>
      match EventHandler.handle_POST py loads event req p with
      | (_, p', None) => Ok (self, p')
      | (_, _, Some e) => Raise e
      end
  | Called GenerateName =>
      result_bind (SessionManager.generate_name shuffle fuel self p)
        (λ '(_, self', p'), Ok (self', p'))
  | Called (Activate name) => SessionManager.activate clock name self p
  | Called NextName =>
      match Names.names_next shuffle fuel (p_names p) with
      | Some (_, st) => Ok (self, set_names st p)
      | None => OutOfFuel
      end
  end.

Fixpoint serve (fuel : nat) (steps : list step) (self : SessionManager.t)
    (p : process rng) : result (SessionManager.t * process rng) :=
  match steps with
  | [] => Ok (self, p)
  | s :: steps' =>
      result_bind (serve_step fuel s self p)
        (λ '(self', p'), serve fuel steps' self' p')
  end.

End Server.


(** Every timestamp of the registry is a reading the clock has given. *)
Definition seen_ok {rng} (clock : nat → Z) (self : SessionManager.t)
    (p : process rng) : Prop :=
  ∀ k s, SessionManager.sessions self !! k = Some s →
    ∃ i, (i < p_ticks p)%nat ∧ Session.seen s = clock i.

(** The characters of a generated name: lower-case letters and the
    separator. *)
Definition name_char (c : ascii) : bool :=
  let n := nat_of_ascii c in
  ((97 <=? n)%nat && (n <=? 122)%nat) || Ascii.eqb c "-"%char.

Fixpoint name_chars (s : string) : bool :=
  match s with
  | EmptyString => true
  | String c s' => name_char c && name_chars s'
  end.





(** ** Sample requests *)

Module Sample.

(** A request that brings the session cookie with value [v]. *)
Definition returning (v : string) : request :=
  Request [] {[ "session" := MkMorsel v "" ]} [] [].

(** A first visit, an event, a direct activation and a returning visitor. *)
Definition steps : list step :=
  [Filtered Demo.request0;
   Posted "ev" (Demo.post "2" "{}");
   Called (Activate "guest");
   Filtered (returning "alpha-orange")].

End Sample.

(** * Properties *)

(** ** Cartesian products *)

Section ProductFacts.

Context {A : Type}.
Implicit Types (ps : list (list A)) (t : list A).

Lemma product_nil : Names.product (@nil (list A)) = [[]].
Proof. reflexivity. Qed.

Lemma product_snoc ps pool :
  Names.product (ps ++ [pool]) = Names.product_step (Names.product ps) pool.
Proof. unfold Names.product. by rewrite fold_left_app. Qed.

Lemma elem_of_product_step (r : list (list A)) pool t :
  t ∈ Names.product_step r pool ↔ ∃ x y, t = x ++ [y] ∧ x ∈ r ∧ y ∈ pool.
Proof.
  unfold Names.product_step. rewrite list_elem_of_bind. split.
  - intros (x & Ht & Hx). apply list_elem_of_fmap in Ht as (y & -> & Hy). eauto.
  - intros (x & y & -> & Hx & Hy). exists x. split; [|done].
    apply list_elem_of_fmap. eauto.
Qed.

(** A tuple is produced exactly when it picks one element of each pool, in
    the order of the pools. *)
Lemma elem_of_product ps t :
  t ∈ Names.product ps ↔ Forall2 (λ y pool, y ∈ pool) t ps.
Proof.
  revert t. induction ps as [|pool ps IH] using rev_ind; intros t.
  - rewrite product_nil, list_elem_of_singleton. split.
    + intros ->. constructor.
    + by intros ->%Forall2_nil_inv_r.
  - rewrite product_snoc, elem_of_product_step. split.
    + intros (x & y & -> & Hx & Hy). apply Forall2_app; [by apply IH|].
      by repeat constructor.
    + intros (x & l & Hx & Hl & ->)%Forall2_app_inv_r.
      apply Forall2_cons_inv_r in Hl as (y & l' & Hy & ->%Forall2_nil_inv_r & ->).
      exists x, y. split_and!; [done| by apply IH | done].
Qed.

Lemma NoDup_product_step (r : list (list A)) pool :
  NoDup r → NoDup pool → NoDup (Names.product_step r pool).
Proof.
  intros Hr Hp. unfold Names.product_step. apply NoDup_bind; [| |done].
  - intros x1 x2 t _ _ (y1 & -> & _)%list_elem_of_fmap (y2 & Heq & _)%list_elem_of_fmap.
    by apply app_inj_tail in Heq as [-> _].
  - intros x _. apply NoDup_fmap_2; [|done].
    intros y1 y2 Heq. by apply app_inj_tail in Heq as [_ ->].
Qed.

(** Pools without repeats give a product without repeats. *)
Lemma NoDup_product ps : Forall NoDup ps → NoDup (Names.product ps).
Proof.
  induction ps as [|pool ps IH] using rev_ind; intros Hps.
  - rewrite product_nil. apply NoDup_singleton.
  - apply Forall_app in Hps as [Hps Hpool]. rewrite product_snoc.
    apply NoDup_product_step; [by apply IH|]. by inversion Hpool.
Qed.

(** Non-empty pools give a non-empty product. *)
Lemma product_nonempty ps :
  Forall (λ pool, pool ≠ []) ps → Names.product ps ≠ [].
Proof.
  induction ps as [|pool ps IH] using rev_ind; intros Hps.
  - by rewrite product_nil.
  - apply Forall_app in Hps as [Hps Hpool]. rewrite product_snoc.
    specialize (IH Hps). inversion Hpool as [|? ? Hne _]; subst.
    destruct (Names.product ps) as [|x r]; [done|].
    destruct pool as [|y pool]; [done|]. unfold Names.product_step. by simpl.
Qed.

Lemma product_tuple_length ps t : t ∈ Names.product ps → length t = length ps.
Proof. rewrite elem_of_product. apply Forall2_length. Qed.

End ProductFacts.

(** ** Joining and splitting *)

Lemma split_dash_word w : no_dash w = true → split_dash w = [w].
Proof.
  induction w as [|c w IH]; simpl; [done|].
  intros [Hc Hw]%andb_true_iff. apply negb_true_iff in Hc. rewrite Hc.
  by rewrite (IH Hw).
Qed.

Lemma split_dash_app w r :
  no_dash w = true → split_dash (w +:+ "-" +:+ r) = w :: split_dash r.
Proof.
  induction w as [|c w IH]; simpl; [done|].
  intros [Hc Hw]%andb_true_iff. apply negb_true_iff in Hc. rewrite Hc.
  by rewrite (IH Hw).
Qed.

(** Splitting undoes joining, for words that hold no separator. *)
Lemma split_join t :
  t ≠ [] → Forall (λ w, no_dash w = true) t → split_dash (Names.join t) = t.
Proof.
  induction t as [|w t IH]; [done|]. intros _ Hall.
  apply Forall_cons in Hall as [Hw Ht].
  destruct t as [|w' t].
  - simpl. by apply split_dash_word.
  - change (Names.join (w :: w' :: t)) with (w +:+ "-" +:+ Names.join (w' :: t)).
    rewrite split_dash_app by done. f_equal. by apply IH.
Qed.

Lemma join_inj t1 t2 :
  t1 ≠ [] → t2 ≠ [] →
  Forall (λ w, no_dash w = true) t1 → Forall (λ w, no_dash w = true) t2 →
  Names.join t1 = Names.join t2 → t1 = t2.
Proof.
  intros H1 H2 F1 F2 Heq.
  rewrite <- (split_join t1), <- (split_join t2) by done. by rewrite Heq.
Qed.

Lemma vocabulary_no_dash :
  Forall (λ w, no_dash w = true) (Names.letters ++ Names.colours).
Proof. repeat constructor. Qed.

(** ** Stages *)

Lemma Forall2_replicate_r_inv {A B} (P : A → B → Prop) l n y :
  Forall2 P l (replicate n y) → Forall (λ x, P x y) l.
Proof.
  revert l. induction n as [|n IH]; intros l H; simpl in H.
  - apply Forall2_nil_inv_r in H as ->. constructor.
  - apply Forall2_cons_inv_r in H as (x & l' & Hx & H & ->).
    constructor; [done|]. by apply IH.
Qed.

Section StageFacts.

Context {rng : Type}.
Variable shuffle : rng → list string → list string * rng.
Hypothesis shuffle_perm : ∀ g l, (shuffle g l).1 ≡ₚ l.
Variable g : rng.

Local Abbreviation gen_at := (Names.gen_at shuffle g).
Local Abbreviation stage := (Names.stage shuffle g).

Lemma name_parts_next_letters s :
  Names.np_letters (Names.name_parts_next shuffle s) ≡ₚ Names.np_letters s.
Proof.
  unfold Names.name_parts_next.
  pose proof (shuffle_perm (Names.np_rng s) (Names.np_letters s)) as H.
  destruct (shuffle (Names.np_rng s) (Names.np_letters s)) as [l g1].
  destruct (shuffle g1 (Names.np_colours s)) as [c g2].
  by destruct (Names.np_started s).
Qed.

Lemma name_parts_next_colours s :
  Names.np_colours (Names.name_parts_next shuffle s) ≡ₚ Names.np_colours s.
Proof.
  unfold Names.name_parts_next.
  destruct (shuffle (Names.np_rng s) (Names.np_letters s)) as [l g1].
  pose proof (shuffle_perm g1 (Names.np_colours s)) as H.
  destruct (shuffle g1 (Names.np_colours s)) as [c g2].
  by destruct (Names.np_started s).
Qed.

Lemma name_parts_next_parts s :
  Names.np_parts (Names.name_parts_next shuffle s) =
    (if Names.np_started s then Names.np_parts s ++ [Names.Letters]
     else [Names.Letters; Names.Colours])
  ∧ Names.np_started (Names.name_parts_next shuffle s) = true.
Proof.
  unfold Names.name_parts_next.
  destruct (shuffle (Names.np_rng s) (Names.np_letters s)) as [l g1].
  destruct (shuffle g1 (Names.np_colours s)) as [c g2].
  by destruct (Names.np_started s).
Qed.

Lemma gen_at_S k : gen_at (S k) = Names.name_parts_next shuffle (gen_at k).
Proof. reflexivity. Qed.

(** The vocabularies are only ever permuted. *)
Lemma gen_at_vocabulary k :
  Names.np_letters (gen_at k) ≡ₚ Names.letters ∧
  Names.np_colours (gen_at k) ≡ₚ Names.colours.
Proof.
  induction k as [|k [IHl IHc]]; [done|]. rewrite gen_at_S. split.
  - by rewrite name_parts_next_letters.
  - by rewrite name_parts_next_colours.
Qed.

(** After [k+1] resumptions [parts] is [letters, colours] followed by [k]
    more references to [letters]. *)
Lemma gen_at_parts k :
  Names.np_started (gen_at (S k)) = true ∧
  Names.np_parts (gen_at (S k)) =
    Names.Letters :: Names.Colours :: replicate k Names.Letters.
Proof.
  induction k as [|k [IHs IHp]].
  - rewrite (gen_at_S 0).
    by destruct (name_parts_next_parts (gen_at 0)) as [-> ->].
  - rewrite (gen_at_S (S k)).
    destruct (name_parts_next_parts (gen_at (S k))) as [-> ->].
    split; [done|]. rewrite IHs, IHp.
    by rewrite replicate_S_end, !app_comm_cons.
Qed.

Lemma pools_gen_at k :
  Names.pools (gen_at (S k)) =
    Names.np_letters (gen_at (S k)) :: Names.np_colours (gen_at (S k))
      :: replicate k (Names.np_letters (gen_at (S k))).
Proof.
  unfold Names.pools. destruct (gen_at_parts k) as [_ ->].
  simpl. by rewrite fmap_replicate.
Qed.

(** The tuples of stage [k]: a letter, a colour, then [k] letters. *)
Lemma elem_of_stage k t :
  t ∈ stage k ↔
  ∃ a c ls, t = a :: c :: ls ∧ a ∈ Names.letters ∧ c ∈ Names.colours ∧
            length ls = k ∧ Forall (λ w, w ∈ Names.letters) ls.
Proof.
  unfold Names.stage. rewrite elem_of_product, pools_gen_at.
  destruct (gen_at_vocabulary (S k)) as [Hl Hc]. split.
  - intros H. apply Forall2_cons_inv_r in H as (a & t1 & Ha & H & ->).
    apply Forall2_cons_inv_r in H as (c & ls & Hcc & H & ->).
    exists a, c, ls. rewrite Hl in Ha. rewrite Hc in Hcc.
    split_and!; [done..| |].
    + apply Forall2_length in H. by rewrite length_replicate in H.
    + apply Forall2_replicate_r_inv in H as H'.
      eapply Forall_impl; [apply H'|]. intros w Hw. by rewrite <- Hl.
  - intros (a & c & ls & -> & Ha & Hcc & Hlen & Hls).
    constructor; [by rewrite Hl|]. constructor; [by rewrite Hc|].
    apply Forall2_replicate_r; [done|].
    eapply Forall_impl; [apply Hls|]. intros w Hw. simpl. by rewrite Hl.
Qed.

Lemma NoDup_vocabulary : NoDup Names.letters ∧ NoDup Names.colours.
Proof. split; apply (bool_decide_unpack _); by vm_compute. Qed.

Lemma stage_NoDup k : NoDup (stage k).
Proof.
  unfold Names.stage. apply NoDup_product. rewrite pools_gen_at.
  destruct (gen_at_vocabulary (S k)) as [Hl Hc].
  destruct NoDup_vocabulary as [Nl Nc].
  rewrite <- Hl in Nl. rewrite <- Hc in Nc.
  repeat constructor; [done..|]. by apply Forall_replicate.
Qed.

Lemma stage_nonempty k : stage k ≠ [].
Proof.
  unfold Names.stage. apply product_nonempty. rewrite pools_gen_at.
  destruct (gen_at_vocabulary (S k)) as [Hl Hc].
  assert (Names.np_letters (gen_at (S k)) ≠ []) as Nl
    by (intros E; rewrite E in Hl; by apply Permutation_nil_l in Hl).
  assert (Names.np_colours (gen_at (S k)) ≠ []) as Nc
    by (intros E; rewrite E in Hc; by apply Permutation_nil_l in Hc).
  repeat constructor; [done..|]. by apply Forall_replicate.
Qed.

(** A tuple of stage [k] has [k+2] words, none holding the separator. *)
Lemma stage_tuple k t :
  t ∈ stage k → length t = S (S k) ∧ Forall (λ w, no_dash w = true) t.
Proof.
  intros (a & c & ls & -> & Ha & Hc & Hlen & Hls)%elem_of_stage.
  split; [simpl; by rewrite Hlen|].
  pose proof vocabulary_no_dash as Hv. rewrite Forall_forall in Hv.
  constructor; [apply Hv, elem_of_app; by left|].
  constructor; [apply Hv, elem_of_app; by right|].
  eapply Forall_impl; [apply Hls|]. intros w Hw.
  apply Hv, elem_of_app. by left.
Qed.

Lemma handed_tuple n t :
  t ∈ handed shuffle g n →
  length t = S n ∧ Forall (λ w, no_dash w = true) t.
Proof.
  destruct n as [|k]; simpl; [by intros ?%elem_of_nil|]. apply stage_tuple.
Qed.

(** Everything handed out through stage [n] is pairwise distinct, as
    tuples and as names. *)
Lemma handed_NoDup n : NoDup (seq 0 n ≫= handed shuffle g).
Proof.
  apply NoDup_bind; [| |apply NoDup_seq].
  - intros n1 n2 t _ _ [H1 _]%handed_tuple [H2 _]%handed_tuple. lia.
  - intros [|k] _; simpl; [constructor|apply stage_NoDup].
Qed.

Lemma handed_names_NoDup n :
  NoDup (Names.join <$> (seq 0 n ≫= handed shuffle g)).
Proof.
  apply NoDup_fmap_2_strong; [|apply handed_NoDup].
  intros t1 t2 (n1 & H1 & _)%list_elem_of_bind (n2 & H2 & _)%list_elem_of_bind.
  apply handed_tuple in H1 as [L1 F1]. apply handed_tuple in H2 as [L2 F2].
  apply join_inj; [by destruct t1|by destruct t2|done..].
Qed.

(** ** The history of the iterator *)

Local Abbreviation history := (history shuffle g).

Lemma history_init : history [] (Names.names_init g).
Proof. by exists 0, []. Qed.

Lemma handed_through n pre :
  handed shuffle g n = pre →
  seq 0 (S n) ≫= handed shuffle g = (seq 0 n ≫= handed shuffle g) ++ pre.
Proof.
  intros <-. rewrite seq_S, bind_app. simpl. by rewrite app_nil_r.
Qed.

(** The two branches of the chain's loop. *)
Lemma chain_next_take fuel st t rest :
  Names.ns_cur st = t :: rest →
  Names.chain_next shuffle (S fuel) st =
    Some (t, Names.NamesState (Names.ns_gen st) rest).
Proof. intros H. simpl. by rewrite H. Qed.

Lemma chain_next_advance fuel st n :
  Names.ns_cur st = [] → Names.ns_gen st = gen_at n →
  Names.chain_next shuffle (S fuel) st =
    Names.chain_next shuffle fuel (Names.NamesState (gen_at (S n)) (stage n)).
Proof. intros Hc Hg. simpl. by rewrite Hc, Hg. Qed.

(** One [next] on the chain extends the history by the tuple it returns. *)
Lemma chain_next_history fuel drawn st t st' :
  history drawn st →
  Names.chain_next shuffle fuel st = Some (t, st') →
  history (drawn ++ [t]) st'.
Proof.
  intros (n & pre & Hgen & Hcur & ->) Hnext.
  destruct fuel as [|fuel]; [done|].
  destruct (Names.ns_cur st) as [|t0 rest] eqn:Ecur.
  - rewrite app_nil_r in Hcur.
    rewrite (chain_next_advance _ _ n Ecur Hgen) in Hnext.
    destruct fuel as [|fuel]; [done|].
    destruct (stage n) as [|t1 rest1] eqn:Estage; [by destruct (stage_nonempty n)|].
    rewrite (chain_next_take _ _ t1 rest1) in Hnext by done.
    inversion Hnext; subst t1 st'; clear Hnext.
    exists (S n), [t]. split_and!.
    + reflexivity.
    + simpl. by rewrite Estage.
    + by rewrite (handed_through n pre).
  - rewrite (chain_next_take _ _ t0 rest Ecur) in Hnext.
    inversion Hnext; subst t0 st'; clear Hnext.
    exists n, (pre ++ [t]). simpl. split_and!; [done| |].
    + by rewrite <- app_assoc.
    + by rewrite app_assoc.
Qed.

(** Two iterations of the chain's loop always reach a tuple. *)
Lemma chain_next_total fuel drawn st :
  history drawn st → (2 ≤ fuel)%nat →
  ∃ t st', Names.chain_next shuffle fuel st = Some (t, st').
Proof.
  intros (n & pre & Hgen & Hcur & ->) Hfuel.
  destruct fuel as [|[|fuel]]; [lia..|].
  destruct (Names.ns_cur st) as [|t0 rest] eqn:Ecur.
  - rewrite (chain_next_advance _ _ n Ecur Hgen).
    destruct (stage n) as [|t1 rest1] eqn:Estage; [by destruct (stage_nonempty n)|].
    rewrite (chain_next_take _ _ t1 rest1) by done. eauto.
  - rewrite (chain_next_take _ _ t0 rest Ecur). eauto.
Qed.

Lemma history_NoDup drawn st :
  history drawn st → NoDup (Names.join <$> drawn).
Proof.
  intros (n & pre & Hgen & Hcur & ->).
  pose proof (handed_names_NoDup (S n)) as H.
  rewrite (handed_through n _ Hcur), app_assoc, fmap_app in H.
  by apply NoDup_app in H as [H _].
Qed.

(** [next(names)]: the name returned is new to the history. *)
Lemma names_next_history fuel drawn st x st' :
  history drawn st →
  Names.names_next shuffle fuel st = Some (x, st') →
  ∃ t, x = Names.join t ∧ history (drawn ++ [t]) st' ∧
       x ∉ Names.join <$> drawn.
Proof.
  intros Hh Hnext. unfold Names.names_next in Hnext.
  destruct (Names.chain_next shuffle fuel st) as [[t st1]|] eqn:E; [|done].
  inversion Hnext; subst x st1; clear Hnext.
  pose proof (chain_next_history _ _ _ _ _ Hh E) as Hh'.
  exists t. split_and!; [done..|].
  apply history_NoDup in Hh'. rewrite fmap_app in Hh'.
  apply NoDup_app in Hh' as (_ & Hdisj & _).
  intros Hin. apply (Hdisj _ Hin). simpl. apply list_elem_of_singleton.
  reflexivity.
Qed.

Lemma names_next_total fuel drawn st :
  history drawn st → (2 ≤ fuel)%nat →
  ∃ x st', Names.names_next shuffle fuel st = Some (x, st').
Proof.
  intros Hh Hfuel. unfold Names.names_next.
  destruct (chain_next_total fuel drawn st Hh Hfuel) as (t & st' & ->). eauto.
Qed.

Lemma reachable_history st :
  Names.reachable shuffle g st → ∃ drawn, history drawn st.
Proof.
  induction 1 as [|fuel st x st' _ [drawn IH] Hnext].
  - exists []. apply history_init.
  - destruct (names_next_history _ _ _ _ _ IH Hnext) as (t & _ & Hh & _). eauto.
Qed.

(** The iterator can be drawn from as often as wanted. *)
Lemma draw_total fuel n : ∀ drawn st,
  history drawn st → (2 ≤ fuel)%nat →
  ∃ xs st', Names.draw shuffle fuel n st = Some (xs, st') ∧ length xs = n.
Proof.
  induction n as [|n IH]; intros drawn st Hh Hfuel; [by eexists _, _|].
  destruct (names_next_total fuel _ _ Hh Hfuel) as (x & st1 & E).
  destruct (names_next_history _ _ _ _ _ Hh E) as (t & _ & Hh1 & _).
  destruct (IH _ _ Hh1 Hfuel) as (xs & st' & Hd & Hlen).
  exists (x :: xs), st'. simpl. rewrite E, Hd. by rewrite <- Hlen.
Qed.

(** ** The first stage *)

Lemma length_product_step {A} (r : list (list A)) pool :
  length (Names.product_step r pool) = (length r * length pool)%nat.
Proof.
  unfold Names.product_step. induction r as [|x r IH]; [done|].
  rewrite bind_cons, length_app, length_fmap, IH. done.
Qed.

Lemma length_stage_0 : length (stage 0) = 144%nat.
Proof.
  unfold Names.stage. rewrite pools_gen_at. simpl.
  change (Names.product [?l; ?c])
    with (Names.product_step (Names.product_step [[]] l) c).
  rewrite !length_product_step.
  destruct (gen_at_vocabulary 1) as [-> ->]. reflexivity.
Qed.

Lemma stage_names_NoDup k : NoDup (Names.join <$> stage k).
Proof.
  apply NoDup_fmap_2_strong; [|apply stage_NoDup].
  intros t1 t2 [L1 F1]%stage_tuple [L2 F2]%stage_tuple.
  apply join_inj; [by destruct t1|by destruct t2|done..].
Qed.

(** Stage 0 is the letter-colour pairs, each once. *)
Lemma stage_0_pairs : stage 0 ≡ₚ Names.product [Names.letters; Names.colours].
Proof.
  apply NoDup_Permutation; [apply stage_NoDup| |].
  - destruct NoDup_vocabulary as [Nl Nc]. apply NoDup_product.
    constructor; [done|]. constructor; [done|]. constructor.
  - intros t. rewrite elem_of_stage, elem_of_product. split.
    + intros (a & c & ls & -> & Ha & Hc & Hlen & _).
      destruct ls; [|done].
      constructor; [done|]. constructor; [done|]. constructor.
    + intros H. apply Forall2_cons_inv_r in H as (a & t1 & Ha & H & ->).
      apply Forall2_cons_inv_r in H as (c & ls & Hc & ->%Forall2_nil_inv_r & ->).
      exists a, c, []. by split_and!.
Qed.

(** Draws served by the product in progress. *)
Lemma draw_cur fuel pre gen rest :
  Names.draw shuffle (S fuel) (length pre) (Names.NamesState gen (pre ++ rest)) =
    Some (Names.join <$> pre, Names.NamesState gen rest).
Proof.
  induction pre as [|t pre IH]; [done|].
  cbn [length Names.draw]. unfold Names.names_next.
  rewrite (chain_next_take _ _ t (pre ++ rest)) by done.
  cbn [Names.ns_gen]. by rewrite IH.
Qed.

Lemma draw_stage_0 fuel N :
  (N ≤ 144)%nat → (2 ≤ fuel)%nat →
  ∃ st, Names.draw shuffle fuel N (Names.names_init g) =
          Some (Names.join <$> take N (stage 0), st).
Proof.
  intros HN Hfuel. destruct N as [|m]; [by eexists|].
  destruct fuel as [|[|fuel]]; [lia..|].
  pose proof length_stage_0 as Hlen.
  destruct (stage 0) as [|t0 rest0] eqn:Estage; [done|].
  cbn [Names.draw]. unfold Names.names_next.
  rewrite (chain_next_advance _ _ 0) by done. rewrite Estage.
  rewrite (chain_next_take _ _ t0 rest0) by done. cbn [Names.ns_gen].
  assert (length (take m rest0) = m) as Hm
    by (rewrite length_take; simpl in Hlen; lia).
  assert (Names.draw shuffle (S (S fuel)) m (Names.NamesState (gen_at 1) rest0)
          = Some (Names.join <$> take m rest0,
                  Names.NamesState (gen_at 1) (drop m rest0))) as ->.
  { rewrite <- (take_drop m rest0) at 1. rewrite <- Hm at 1. apply draw_cur. }
  by eexists.
Qed.

(** C7: for every [N ≤ 144], the first [N] values drawn from [names] are
    pairwise distinct.  The draws succeed (two iterations of the chain's loop
    are enough for each), they are the first [N] names of stage 0, each is a
    letter joined to a colour by the separator, and the full 144 are all the
    letter-colour combinations, each once. *)
Theorem names_first_144_distinct (N fuel : nat) :
  (N ≤ 144)%nat → (2 ≤ fuel)%nat →
  ∃ xs st,
    Names.draw shuffle fuel N (Names.names_init g) = Some (xs, st) ∧
    length xs = N ∧
    NoDup xs ∧
    (∀ x, x ∈ xs → ∃ a c, a ∈ Names.letters ∧ c ∈ Names.colours ∧
                          x = Names.join [a; c]) ∧
    (N = 144%nat →
     xs ≡ₚ Names.join <$> Names.product [Names.letters; Names.colours]).
Proof.
  intros HN Hfuel. destruct (draw_stage_0 fuel N HN Hfuel) as [st Hdraw].
  exists (Names.join <$> take N (stage 0)), st. split_and!.
  - done.
  - rewrite length_fmap, length_take, length_stage_0. lia.
  - eapply sublist_NoDup; [apply (stage_names_NoDup 0)|].
    apply fmap_sublist, sublist_take.
  - intros x (t & -> & Ht)%list_elem_of_fmap.
    pose proof (elem_of_sublist _ _ _ Ht (sublist_take _ _)) as Ht'.
    clear Ht; rename Ht' into Ht.
    apply elem_of_stage in Ht as (a & c & ls & -> & Ha & Hc & Hlen & _).
    destruct ls; [|done]. eauto.
  - intros ->. rewrite take_ge by (rewrite length_stage_0; lia).
    by rewrite stage_0_pairs.
Qed.

(** C6, as the code has it: once a stage is exhausted the generator appends
    one more reference to the (re-shuffled) letters list to the END of
    [parts], and the chain goes on with the Cartesian product of the new
    factor list.  The factors of stage [k] are therefore a permutation of the
    letters, a permutation of the colours, and [k] more copies of the same
    letters list; every name of stage [k] is a letter word, then the colour
    word as its SECOND component, then [k] further letter words. *)
Theorem stage_names_shape (k : nat) :
  Names.np_parts (gen_at (S (S k))) =
    Names.np_parts (gen_at (S k)) ++ [Names.Letters] ∧
  (∃ l c, l ≡ₚ Names.letters ∧ c ≡ₚ Names.colours ∧
          Names.pools (gen_at (S k)) = l :: c :: replicate k l) ∧
  (∀ fuel st, Names.ns_cur st = [] → Names.ns_gen st = gen_at (S k) →
     Names.chain_next shuffle (S fuel) st =
       Names.chain_next shuffle fuel
         (Names.NamesState (gen_at (S (S k)))
            (Names.product (Names.pools (gen_at (S (S k))))))) ∧
  (∀ x, x ∈ Names.join <$> stage k →
     ∃ a c ls, split_dash x = a :: c :: ls ∧
               a ∈ Names.letters ∧ c ∈ Names.colours ∧
               length ls = k ∧ Forall (λ w, w ∈ Names.letters) ls).
Proof.
  split_and!.
  - destruct (gen_at_parts k) as [_ ->]. destruct (gen_at_parts (S k)) as [_ ->].
    by rewrite replicate_S_end, !app_comm_cons.
  - destruct (gen_at_vocabulary (S k)) as [Hl Hc].
    eexists _, _. split_and!; [exact Hl|exact Hc|apply pools_gen_at].
  - intros fuel st Hcur Hgen. apply chain_next_advance; done.
  - intros x (t & -> & Ht)%list_elem_of_fmap.
    destruct (stage_tuple k t Ht) as [Hlen Hnd].
    rewrite split_join by (done || by destruct t).
    apply elem_of_stage in Ht as (a & c & ls & -> & Ha & Hc & Hls & Hall).
    by exists a, c, ls.
Qed.

End StageFacts.

(** ** Issuing names *)

Section GenerateNameFacts.

Context {rng : Type}.
Variable shuffle : rng → list string → list string * rng.
Hypothesis shuffle_perm : ∀ g l, (shuffle g l).1 ≡ₚ l.
Variable g : rng.

Local Abbreviation history := (history shuffle g).
Local Abbreviation generate_name := (SessionManager.generate_name shuffle).

Implicit Types (self : SessionManager.t) (p : process rng).

Lemma redraw_unfold gas fuel self r st :
  SessionManager.redraw shuffle gas fuel self r st =
    if decide (is_Some (SessionManager.sessions self !! r)) then
      match fuel with
      | O => OutOfFuel
      | S fuel' =>
          match Names.names_next shuffle gas st with
          | Some (r1, st1) => SessionManager.redraw shuffle gas fuel' self r1 st1
          | None => OutOfFuel
          end
      end
    else Ok (r, st).
Proof. by destruct fuel. Qed.

(** The loop only returns a name that is not a key. *)
Lemma redraw_fresh gas fuel self r st r' st' :
  SessionManager.redraw shuffle gas fuel self r st = Ok (r', st') →
  SessionManager.sessions self !! r' = None.
Proof.
  revert r st. induction fuel as [|fuel IH]; intros r st;
    rewrite redraw_unfold; destruct (decide _) as [Hin|Hout]; try done.
  - intros [= <- <-]. by apply eq_None_not_Some.
  - destruct (Names.names_next shuffle gas st) as [[r1 st1]|]; [|done]. apply IH.
  - intros [= <- <-]. by apply eq_None_not_Some.
Qed.

(** The loop extends the history; what it returns is the last name drawn. *)
Lemma redraw_history gas fuel self drawn t0 st r' st' :
  history (drawn ++ [t0]) st →
  SessionManager.redraw shuffle gas fuel self (Names.join t0) st = Ok (r', st') →
  ∃ ts t, history (drawn ++ ts ++ [t]) st' ∧ r' = Names.join t.
Proof.
  revert drawn t0 st. induction fuel as [|fuel IH]; intros drawn t0 st Hh;
    rewrite redraw_unfold; destruct (decide _) as [Hin|Hout]; try done.
  - intros [= <- <-]. by exists [], t0.
  - destruct (Names.names_next shuffle gas st) as [[r1 st1]|] eqn:E; [|done].
    destruct (names_next_history shuffle shuffle_perm g _ _ _ _ _ Hh E)
      as (t1 & -> & Hh1 & _).
    intros Hre. destruct (IH _ _ _ Hh1 Hre) as (ts & t & Hh' & ->).
    exists (t0 :: ts), t. split; [|done].
    by rewrite <- app_assoc in Hh'.
  - intros [= <- <-]. by exists [], t0.
Qed.

(** The loop ends once the keys not yet drawn are used up. *)
Lemma redraw_total gas fuel self drawn st r :
  (2 ≤ gas)%nat → history drawn st →
  SessionManager.sessions self !! r = None ∨
    (size (dom (SessionManager.sessions self)
             ∖ list_to_set (Names.join <$> drawn)) < fuel)%nat →
  ∃ r' st', SessionManager.redraw shuffle gas fuel self r st = Ok (r', st').
Proof.
  intros Hgas. revert drawn st r.
  induction fuel as [|fuel IH]; intros drawn st r Hh Hm;
    rewrite redraw_unfold; destruct (decide _) as [Hin|Hout]; eauto.
  - destruct Hm as [Hm|Hm]; [|lia]. rewrite Hm in Hin. by destruct Hin.
  - destruct Hm as [Hm|Hm]; [rewrite Hm in Hin; by destruct Hin|].
    destruct (names_next_total shuffle shuffle_perm g gas _ _ Hh Hgas)
      as (x & st1 & E). rewrite E.
    destruct (names_next_history shuffle shuffle_perm g _ _ _ _ _ Hh E)
      as (t1 & -> & Hh1 & Hnew).
    apply (IH _ _ _ Hh1).
    destruct (SessionManager.sessions self !! Names.join t1) as [s|] eqn:Ekey;
      [right|by left].
    assert (dom (SessionManager.sessions self)
              ∖ list_to_set (Names.join <$> drawn ++ [t1])
            ⊂ dom (SessionManager.sessions self)
              ∖ list_to_set (Names.join <$> drawn)) as Hsub.
    { assert (Names.join t1 ∈ dom (SessionManager.sessions self)) as Hd
        by (apply elem_of_dom; eauto).
      split.
      - intros y [Hy Hny]%elem_of_difference. apply elem_of_difference.
        split; [done|]. intros Hy'. apply Hny.
        rewrite fmap_app, list_to_set_app_L. apply elem_of_union. by left.
      - intros Hsub. specialize (Hsub (Names.join t1)).
        assert (Names.join t1 ∈ dom (SessionManager.sessions self)
                  ∖ list_to_set (C:=gset string) (Names.join <$> drawn)) as Hin1.
        { apply elem_of_difference. split; [done|].
          by rewrite elem_of_list_to_set. }
        apply Hsub, elem_of_difference in Hin1 as [_ Hout1]. apply Hout1.
        rewrite fmap_app, list_to_set_app_L. apply elem_of_union. right.
        apply elem_of_list_to_set. simpl. apply list_elem_of_singleton.
        reflexivity. }
    apply subset_size in Hsub. lia.
Qed.

Lemma generate_name_history fuel self p drawn r self' p' :
  history drawn (p_names p) →
  generate_name fuel self p = Ok (r, self', p') →
  ∃ ts t, history (drawn ++ ts ++ [t]) (p_names p') ∧ r = Names.join t.
Proof.
  intros Hh. unfold SessionManager.generate_name.
  destruct (Names.names_next shuffle fuel (p_names p)) as [[r0 st0]|] eqn:E;
    [|done].
  destruct (names_next_history shuffle shuffle_perm g _ _ _ _ _ Hh E)
    as (t0 & -> & Hh0 & _).
  destruct (SessionManager.redraw shuffle fuel fuel self (Names.join t0) st0)
    as [[r1 st1]| |] eqn:Ere; try done.
  intros [= <- <- <-]. apply (redraw_history _ _ _ _ _ _ _ _ Hh0 Ere).
Qed.

(** [generate_name] returns a non-key and writes nothing but [names]. *)
Lemma generate_name_returns_non_key fuel self p r self' p' :
  generate_name fuel self p = Ok (r, self', p') →
  SessionManager.sessions self !! r = None ∧ self' = self ∧
  p' = set_names (p_names p') p.
Proof.
  unfold SessionManager.generate_name.
  destruct (Names.names_next shuffle fuel (p_names p)) as [[r0 st0]|]; [|done].
  destruct (SessionManager.redraw shuffle fuel fuel self r0 st0)
    as [[r1 st1]| |] eqn:Ere; try done.
  intros [= <- <- <-]. split_and!; [|done..].
  by apply redraw_fresh in Ere.
Qed.

Lemma generate_name_total fuel self p drawn :
  history drawn (p_names p) →
  (size (SessionManager.sessions self) + 2 ≤ fuel)%nat →
  ∃ r p', generate_name fuel self p = Ok (r, self, p').
Proof.
  intros Hh Hfuel. unfold SessionManager.generate_name.
  destruct (names_next_total shuffle shuffle_perm g fuel _ _ Hh) as (x & st1 & E);
    [lia|]. rewrite E.
  destruct (names_next_history shuffle shuffle_perm g _ _ _ _ _ Hh E)
    as (t1 & -> & Hh1 & _).
  destruct (redraw_total fuel fuel self _ _ (Names.join t1) ltac:(lia) Hh1)
    as (r' & st' & ->); [|by eauto].
  right. eapply Nat.le_lt_trans; [apply subseteq_size|].
  - apply subseteq_difference_l. reflexivity.
  - rewrite size_dom. lia.
Qed.

(** C4: [generate_name] returns a string that is not a key of the sessions
    mapping at call time and leaves the manager as it was; of the process it
    advances only [names].  With enough fuel for the size of the mapping the
    call does return. *)
Theorem generate_name_fresh self p :
  Names.reachable shuffle g (p_names p) →
  (∀ fuel r self' p',
     generate_name fuel self p = Ok (r, self', p') →
     SessionManager.sessions self !! r = None ∧ self' = self ∧
     p_contexts p' = p_contexts p ∧ p_current p' = p_current p ∧
     p_ticks p' = p_ticks p) ∧
  (∀ fuel,
     (size (SessionManager.sessions self) + 2 ≤ fuel)%nat →
     ∃ r p', generate_name fuel self p = Ok (r, self, p') ∧
             SessionManager.sessions self !! r = None).
Proof.
  intros [drawn Hh]%(reachable_history shuffle shuffle_perm g). split.
  - intros fuel r self' p' Hg.
    apply generate_name_returns_non_key in Hg as (Hr & -> & ->). by split_and!.
  - intros fuel Hfuel.
    destruct (generate_name_total fuel self p drawn Hh Hfuel) as (r & p' & Hg).
    exists r, p'. split; [done|].
    by apply generate_name_returns_non_key in Hg as (Hr & _ & _).
Qed.

(** C8: [generate_name] terminates.  In every state [names] can reach, a
    call of [next(names)] returns a name within two iterations of the chain's
    loop and leaves [names] in such a state again, so any number of names can
    be drawn; and for a sessions mapping of [n] keys the redraw loop ends
    within [n + 2] iterations, on a name that is not a key of the mapping. *)
Theorem generate_name_terminates self p :
  Names.reachable shuffle g (p_names p) →
  (∀ fuel, (2 ≤ fuel)%nat →
     ∃ x st, Names.names_next shuffle fuel (p_names p) = Some (x, st) ∧
             Names.reachable shuffle g st) ∧
  (∀ fuel n, (2 ≤ fuel)%nat →
     ∃ xs st, Names.draw shuffle fuel n (p_names p) = Some (xs, st) ∧
              length xs = n) ∧
  (∀ fuel,
     (size (SessionManager.sessions self) + 2 ≤ fuel)%nat →
     ∃ r p', generate_name fuel self p = Ok (r, self, p') ∧
             SessionManager.sessions self !! r = None ∧
             Names.reachable shuffle g (p_names p')).
Proof.
  intros Hreach.
  destruct (reachable_history shuffle shuffle_perm g _ Hreach) as [drawn Hh].
  split_and!.
  - intros fuel Hfuel.
    destruct (names_next_total shuffle shuffle_perm g fuel _ _ Hh Hfuel)
      as (x & st & E).
    exists x, st. split; [done|]. by eapply Names.reachable_next.
  - intros fuel n Hfuel.
    apply (draw_total shuffle shuffle_perm g fuel n _ _ Hh Hfuel).
  - intros fuel Hfuel.
    destruct (generate_name_total fuel self p drawn Hh Hfuel) as (r & p' & Hg).
    exists r, p'. split; [done|].
    split; [by apply generate_name_returns_non_key in Hg as (Hr & _ & _)|].
    revert Hg. unfold SessionManager.generate_name.
    destruct (Names.names_next shuffle fuel (p_names p)) as [[r0 st0]|] eqn:E;
      [|done].
    assert (Names.reachable shuffle g st0) as Hr0
      by (by eapply Names.reachable_next).
    clear E Hh. generalize fuel at 2. intros n. revert r0 st0 Hr0.
    induction n as [|n IH]; intros r0 st0 Hr0; rewrite redraw_unfold;
      destruct (decide _); simpl; try done.
    + by intros [= <- <-].
    + destruct (Names.names_next shuffle fuel st0) as [[r1 st1]|] eqn:E1; [|done].
      apply IH. by eapply Names.reachable_next.
    + by intros [= <- <-].
Qed.

End GenerateNameFacts.

(** ** The registry *)

Section SessionFacts.

Context {rng : Type}.
Variable shuffle : rng → list string → list string * rng.
Hypothesis shuffle_perm : ∀ g l, (shuffle g l).1 ≡ₚ l.
Variable clock : nat → Z.
Variable g : rng.

Local Abbreviation history := (history shuffle g).
Local Abbreviation activate := (SessionManager.activate clock).
Local Abbreviation generate_name := (SessionManager.generate_name shuffle).

Implicit Types (self : SessionManager.t) (p : process rng).

Lemma new_session_eq name p :
  SessionManager._new_session clock name p =
    (Session.Make (length (p_contexts p)) (clock (p_ticks p)),
     Process (p_names p)
             (alter ctx_start (length (p_contexts p))
                    (p_contexts p ++ [MkContext name false []]))
             (p_current p) (S (p_ticks p))).
Proof. reflexivity. Qed.

Lemma started_context name (cs : list Context) :
  alter ctx_start (length cs) (cs ++ [MkContext name false []]) =
    cs ++ [MkContext name true []].
Proof.
  rewrite <- (Nat.add_0_r (length cs)) at 1. by rewrite alter_app_r.
Qed.

(** First sight of an identifier: a context is built and started, a session
    is inserted, and the session is activated. *)
Lemma activate_absent name self p :
  SessionManager.sessions self !! name = None →
  activate name self p =
    Ok (SessionManager.set_sessions
          (<[name := Session.Make (length (p_contexts p))
                                  (clock (S (p_ticks p)))]>
             (SessionManager.sessions self)) self,
        Process (p_names p) (p_contexts p ++ [MkContext name true []])
                (Some (length (p_contexts p))) (S (S (p_ticks p)))).
Proof.
  intros Hnone. unfold SessionManager.activate.
  destruct (decide _) as [_|Hne]; [|done].
  rewrite new_session_eq. cbn [SessionManager.set_sessions SessionManager.sessions].
  rewrite lookup_insert_eq.
  cbn. by rewrite insert_insert_eq, started_context.
Qed.

(** A known identifier: only the timestamp and the current context change. *)
Lemma activate_present name self p s :
  SessionManager.sessions self !! name = Some s →
  activate name self p =
    Ok (SessionManager.set_sessions
          (<[name := Session.Make (Session.context s) (clock (p_ticks p))]>
             (SessionManager.sessions self)) self,
        Process (p_names p) (p_contexts p) (Some (Session.context s))
                (S (p_ticks p))).
Proof.
  intros Hsome. unfold SessionManager.activate.
  destruct (decide _) as [Hnone|_]; [congruence|].
  by rewrite Hsome.
Qed.

Lemma activate_ok name self p :
  ∃ self' p', activate name self p = Ok (self', p') ∧
              p_names p' = p_names p ∧
              (size (SessionManager.sessions self') ≤
                 S (size (SessionManager.sessions self)))%nat.
Proof.
  destruct (SessionManager.sessions self !! name) as [s|] eqn:E.
  - rewrite (activate_present _ _ _ _ E). eexists _, _. split_and!; [done..|].
    cbn. rewrite map_size_insert, E. simpl. lia.
  - rewrite (activate_absent _ _ _ E). eexists _, _. split_and!; [done..|].
    cbn. rewrite map_size_insert, E. simpl. lia.
Qed.

(** *** Clients *)

(** The names a client is given are drawn from [names] in order. *)
Lemma run_history cs : ∀ fuel self p drawn issued self' p',
  history drawn (p_names p) →
  run shuffle clock fuel cs self p = Ok (issued, self', p') →
  ∃ ts, history (drawn ++ ts) (p_names p') ∧
        issued `sublist_of` (Names.join <$> ts) ∧
        length issued = generate_calls cs.
Proof.
  induction cs as [|c cs IH]; intros fuel self p drawn issued self' p' Hh Hrun.
  - injection Hrun as <- <- <-. exists []. by rewrite app_nil_r.
  - destruct c as [|name|]; simpl in Hrun.
    + destruct (generate_name fuel self p) as [[[r self1] p1]| |] eqn:Eg;
        try done. simpl in Hrun.
      destruct (run shuffle clock fuel cs self1 p1) as [[[rs self2] p2]| |]
        eqn:Er; try done. simpl in Hrun. injection Hrun as <- <- <-.
      destruct (generate_name_history shuffle shuffle_perm g _ _ _ _ _ _ _ Hh Eg) as (ts1 & t & Hh1 & ->).
      destruct (IH _ _ _ _ _ _ _ Hh1 Er) as (ts2 & Hh2 & Hsub & Hlen).
      exists ((ts1 ++ [t]) ++ ts2). split_and!.
      * by rewrite !app_assoc in *.
      * rewrite !fmap_app. rewrite <- app_assoc. apply sublist_inserts_l.
        simpl. by apply sublist_skip.
      * simpl. by rewrite Hlen.
    + destruct (activate_ok name self p) as (self1 & p1 & Ea & Hnames & _).
      rewrite Ea in Hrun. simpl in Hrun. rewrite <- Hnames in Hh. eauto.
    + destruct (Names.names_next shuffle fuel (p_names p)) as [[x st]|] eqn:E;
        [|done].
      destruct (names_next_history shuffle shuffle_perm g _ _ _ _ _ Hh E)
        as (t & -> & Hh1 & _).
      destruct (IH _ _ (set_names st p) _ _ _ _ Hh1 Hrun) as (ts2 & Hh2 & Hsub & Hlen).
      exists (t :: ts2). split_and!; [|by apply sublist_cons|done].
      by rewrite <- app_assoc in Hh2.
Qed.

Lemma run_total cs : ∀ fuel self p drawn,
  history drawn (p_names p) →
  (size (SessionManager.sessions self) + length cs + 2 ≤ fuel)%nat →
  ∃ issued self' p', run shuffle clock fuel cs self p = Ok (issued, self', p').
Proof.
  induction cs as [|c cs IH]; intros fuel self p drawn Hh Hfuel; [by eexists _, _, _|].
  simpl in Hfuel. destruct c as [|name|]; simpl.
  - destruct (generate_name_total shuffle shuffle_perm g fuel self p drawn Hh) as (r & p1 & Eg); [lia|].
    rewrite Eg. simpl.
    destruct (generate_name_history shuffle shuffle_perm g _ _ _ _ _ _ _ Hh Eg) as (ts1 & t & Hh1 & _).
    destruct (IH fuel self p1 _ Hh1) as (rs & self2 & p2 & ->); [lia|].
    simpl. by eexists _, _, _.
  - destruct (activate_ok name self p) as (self1 & p1 & -> & Hnames & Hsize).
    simpl. rewrite <- Hnames in Hh. apply (IH _ _ _ _ Hh). lia.
  - destruct (names_next_total shuffle shuffle_perm g fuel _ _ Hh) as (x & st & E);
      [lia|]. rewrite E.
    destruct (names_next_history shuffle shuffle_perm g _ _ _ _ _ Hh E)
      as (t & _ & Hh1 & _).
    apply (IH _ _ (set_names st p) _ Hh1). lia.
Qed.

(** C1: the identifiers [generate_name] issues are pairwise distinct.
    Whatever the process does with a manager and with [names], in whatever
    order (asking for names, activating identifiers of its choice, the issued
    ones included, or drawing from [names] elsewhere), the results of its
    [generate_name] calls hold no repeat; and with enough fuel every such run
    completes, with one result per call. *)
Theorem generate_name_distinct (cs : list call) self p :
  Names.reachable shuffle g (p_names p) →
  (∀ fuel issued self' p',
     run shuffle clock fuel cs self p = Ok (issued, self', p') →
     NoDup issued ∧ length issued = generate_calls cs) ∧
  (∀ fuel,
     (size (SessionManager.sessions self) + length cs + 2 ≤ fuel)%nat →
     ∃ issued self' p',
       run shuffle clock fuel cs self p = Ok (issued, self', p')).
Proof.
  intros [drawn Hh]%(reachable_history shuffle shuffle_perm g). split.
  - intros fuel issued self' p' Hrun.
    destruct (run_history _ _ _ _ _ _ _ _ Hh Hrun) as (ts & Hh' & Hsub & Hlen).
    split; [|done]. eapply sublist_NoDup; [|exact Hsub].
    apply (history_NoDup shuffle shuffle_perm g) in Hh'.
    rewrite fmap_app in Hh'. by apply NoDup_app in Hh' as (_ & _ & Hts).
  - intros fuel Hfuel. by apply (run_total cs fuel self p drawn).
Qed.

(** *** [activate] and the cookie filter *)

(** C2: [activate(id)] inserts a new session, with a context built for [id]
    and started, exactly when [id] is not a key, and in all cases activates
    the entry for [id] (its timestamp is refreshed and its context becomes
    the current one).  Two calls in a row therefore create one session: the
    second call allocates no context, keeps the entry's context and the set
    of keys, and, when the clock is strictly monotonic, strictly increases
    the entry's timestamp. *)
Theorem activate_twice (name : string) self p :
  ∃ self1 p1 self2 p2 s1 s2,
    activate name self p = Ok (self1, p1) ∧
    activate name self1 p1 = Ok (self2, p2) ∧
    SessionManager.sessions self1 = <[name := s1]> (SessionManager.sessions self) ∧
    match SessionManager.sessions self !! name with
    | None =>
        p_contexts p1 = p_contexts p ++ [MkContext name true []] ∧
        Session.context s1 = length (p_contexts p)
    | Some s =>
        p_contexts p1 = p_contexts p ∧
        Session.context s1 = Session.context s
    end ∧
    p_current p1 = Some (Session.context s1) ∧
    SessionManager.sessions self2 = <[name := s2]> (SessionManager.sessions self1) ∧
    Session.context s2 = Session.context s1 ∧
    p_contexts p2 = p_contexts p1 ∧
    p_current p2 = Some (Session.context s1) ∧
    dom (SessionManager.sessions self2) = dom (SessionManager.sessions self1) ∧
    ((∀ i j, (i < j)%nat → (clock i < clock j)%Z) →
     (Session.seen s1 < Session.seen s2)%Z).
Proof.
  destruct (SessionManager.sessions self !! name) as [s|] eqn:E.
  - set (s1 := Session.Make (Session.context s) (clock (p_ticks p))).
    set (self1 := SessionManager.set_sessions
                    (<[name := s1]> (SessionManager.sessions self)) self).
    set (p1 := Process (p_names p) (p_contexts p) (Some (Session.context s))
                       (S (p_ticks p))).
    assert (SessionManager.sessions self1 !! name = Some s1) as E1
      by apply lookup_insert_eq.
    eexists self1, p1, _, _, s1, _. split_and!.
    + by rewrite (activate_present _ _ _ _ E).
    + by rewrite (activate_present _ _ _ _ E1).
    + done.
    + done.
    + done.
    + done.
    + done.
    + done.
    + done.
    + done.
    + cbn [SessionManager.sessions SessionManager.set_sessions].
      apply dom_insert_lookup_L. by rewrite E1.
    + intros Hmono. cbn. apply Hmono. lia.
  - set (s1 := Session.Make (length (p_contexts p)) (clock (S (p_ticks p)))).
    set (self1 := SessionManager.set_sessions
                    (<[name := s1]> (SessionManager.sessions self)) self).
    set (p1 := Process (p_names p) (p_contexts p ++ [MkContext name true []])
                       (Some (length (p_contexts p))) (S (S (p_ticks p)))).
    assert (SessionManager.sessions self1 !! name = Some s1) as E1
      by apply lookup_insert_eq.
    eexists self1, p1, _, _, s1, _. split_and!.
    + by rewrite (activate_absent _ _ _ E).
    + by rewrite (activate_present _ _ _ _ E1).
    + done.
    + done.
    + done.
    + done.
    + done.
    + done.
    + done.
    + done.
    + cbn [SessionManager.sessions SessionManager.set_sessions].
      apply dom_insert_lookup_L. by rewrite E1.
    + intros Hmono. cbn. apply Hmono. lia.
Qed.

End SessionFacts.

(** ** The cookie filter *)

Section FilterFacts.

Context {rng : Type}.
Variable shuffle : rng → list string → list string * rng.
Hypothesis shuffle_perm : ∀ g l, (shuffle g l).1 ≡ₚ l.
Variable clock : nat → Z.
Variable py : python.
Variable g : rng.

Implicit Types (self : SessionManager.t) (p : process rng).


End FilterFacts.

(** ** The event handler *)

(** *** What [int] rejects *)

Lemma junk_not_space c : junk c = true → is_space c = false.
Proof.
  unfold junk. destruct (is_space c); [|done]. by rewrite !orb_true_l.
Qed.

Lemma junk_not_sign c :
  junk c = true →
  Ascii.eqb c "+"%char = false ∧ Ascii.eqb c "-"%char = false ∧
  Ascii.eqb c "_"%char = false ∧ digit_of c = None.
Proof.
  unfold junk. intros H. apply negb_true_iff in H.
  repeat (apply orb_false_iff in H as [H ?]).
  split_and!; [done..|]. by destruct (digit_of c).
Qed.

Lemma has_junk_rstrip s : has_junk s = true → has_junk (rstrip s) = true.
Proof.
  induction s as [|c s IH]; [done|]. cbn [has_junk rstrip].
  intros [Hc|Hs]%orb_true_iff.
  - destruct (rstrip s).
    + rewrite (junk_not_space _ Hc). cbn [has_junk]. by rewrite Hc.
    + cbn [has_junk]. by rewrite Hc.
  - specialize (IH Hs). destruct (rstrip s) as [|c' r]; [done|].
    cbn [has_junk] in *. rewrite IH. apply orb_true_r.
Qed.

Lemma has_junk_lstrip s : has_junk s = true → has_junk (lstrip s) = true.
Proof.
  induction s as [|c s IH]; [done|]. cbn [has_junk lstrip].
  intros [Hc|Hs]%orb_true_iff.
  - rewrite (junk_not_space _ Hc). cbn [has_junk]. by rewrite Hc.
  - destruct (is_space c); [by apply IH|]. cbn [has_junk]. rewrite Hs.
    apply orb_true_r.
Qed.

Lemma int_digits_junk underscores s : ∀ acc after_digit,
  has_junk s = true → int_digits underscores acc after_digit s = None.
Proof.
  induction s as [|c s IH]; intros acc after_digit; [done|].
  cbn [has_junk int_digits]. intros [Hc|Hs]%orb_true_iff.
  - destruct (junk_not_sign _ Hc) as (_ & _ & -> & ->). done.
  - destruct (Ascii.eqb c "_"%char).
    + destruct (underscores && after_digit); [by apply IH|done].
    + destruct (digit_of c); [by apply IH|done].
Qed.

Lemma int_body_junk py s : has_junk s = true → int_body py s = None.
Proof.
  intros H. unfold int_body. destruct (too_many_digits py s); [done|].
  by apply int_digits_junk.
Qed.

(** A value that holds a character of no integer literal is refused,
    wherever the character stands. *)
Lemma py_int_junk py s : has_junk s = true → py_int py s = None.
Proof.
  intros H%has_junk_rstrip%has_junk_lstrip. unfold py_int.
  destruct (lstrip (rstrip s)) as [|c r]; [done|].
  cbn [has_junk] in H. apply orb_true_iff in H as [Hc|Hr].
  - destruct (junk_not_sign _ Hc) as (-> & -> & _ & _).
    apply int_body_junk. cbn [has_junk]. by rewrite Hc.
  - destruct (Ascii.eqb c "+"%char); [by apply int_body_junk|].
    destruct (Ascii.eqb c "-"%char); [by rewrite int_body_junk|].
    apply int_body_junk. cbn [has_junk]. rewrite Hr. apply orb_true_r.
Qed.

Section EventFacts.

Context {rng : Type}.
Variable py : python.
Variable loads : list Byte.byte → loaded.

Implicit Types (req : request) (p : process rng).


(** C10: a [content-length] header that [int] rejects makes [handle_POST]
    raise: the [ValueError] escapes, and nothing has been sent, read or
    changed by then: no 411, no 400, no response at all.  [int] rejects, in
    particular, every value that holds a character other than a digit, a
    sign, an underscore or white space. *)
Theorem handle_POST_bad_length (name : string) req p (v : string) :
  header_get "content-length" (headers req) = Some v →
  py_int py v = None ∨ has_junk v = true →
  py_int py v = None ∧
  EventHandler.handle_POST py loads name req p = (req, p, Some ValueError).
Proof.
  intros Hv Hbad.
  assert (py_int py v = None) as Hint
    by (destruct Hbad as [H|H]; [done|by apply py_int_junk]).
  split; [done|]. unfold EventHandler.handle_POST. by rewrite Hv, Hint.
Qed.

End EventFacts.

(** ** The model at work *)

Lemma demo_shuffle_perm (g : nat) (l : list string) : (Demo.shuffle g l).1 ≡ₚ l.
Proof.
  unfold Demo.shuffle, rotate. simpl.
  by rewrite Permutation_app_comm, take_drop.
Qed.

Lemma demo_keep_perm (g : unit) (l : list string) : (Demo.keep g l).1 ≡ₚ l.
Proof. reflexivity. Qed.

(** When the shuffles leave the lists in source order, the 144th name closes
    stage 0 and the 145th, the first of stage 1, is a letter, a colour and a
    letter. *)
Example demo_name_144_145 :
  (λ r, drop 143 r.1) <$> Names.draw Demo.keep 2 145 (Names.names_init ())
  = Some ["omega-violet"; "alpha-red-alpha"].
Proof. by vm_compute. Qed.

Lemma names_first_144_distinct_witness :
  ∃ xs st,
    Names.draw Demo.shuffle 2 144 (Names.names_init 0%nat) = Some (xs, st) ∧
    length xs = 144%nat ∧
    NoDup xs ∧
    (∀ x, x ∈ xs → ∃ a c, a ∈ Names.letters ∧ c ∈ Names.colours ∧
                          x = Names.join [a; c]) ∧
    (144%nat = 144%nat →
     xs ≡ₚ Names.join <$> Names.product [Names.letters; Names.colours]).
Proof.
  apply (names_first_144_distinct Demo.shuffle demo_shuffle_perm 0%nat 144 2); lia.
Defined.

(** The claim that the colour closes every name of a later stage fails on
    the first name of stage 1: with the lists in source order it is
    [alpha-red-alpha], whose last component is a letter. *)
Lemma stage_1_colour_not_last :
  ¬ (∀ k x, (1 ≤ k)%nat → x ∈ Names.join <$> Names.stage Demo.keep () k →
       ∃ ls c, split_dash x = ls ++ [c] ∧ length ls = S k ∧
               Forall (λ w, w ∈ Names.letters) ls ∧ c ∈ Names.colours).
Proof.
  intros H.
  destruct (H 1%nat "alpha-red-alpha") as (ls & c & Hsplit & _ & _ & Hc); [lia| |].
  - apply list_elem_of_fmap. exists ["alpha"; "red"; "alpha"]. split; [done|].
    apply (elem_of_stage Demo.keep demo_keep_perm).
    exists "alpha", "red", ["alpha"].
    split_and!; [done| | |done|]; apply (bool_decide_unpack _); by vm_compute.
  - change (split_dash "alpha-red-alpha") with (["alpha"; "red"] ++ ["alpha"])
      in Hsplit.
    apply app_inj_tail in Hsplit as [_ <-].
    revert Hc. apply (bool_decide_unpack _). by vm_compute.
Qed.

Lemma stage_names_shape_witness :
  Names.np_parts (Names.gen_at Demo.shuffle 0%nat 3) =
    Names.np_parts (Names.gen_at Demo.shuffle 0%nat 2) ++ [Names.Letters] ∧
  (∃ l c, l ≡ₚ Names.letters ∧ c ≡ₚ Names.colours ∧
          Names.pools (Names.gen_at Demo.shuffle 0%nat 2) = l :: c :: replicate 1 l) ∧
  (∀ fuel st, Names.ns_cur st = [] →
     Names.ns_gen st = Names.gen_at Demo.shuffle 0%nat 2 →
     Names.chain_next Demo.shuffle (S fuel) st =
       Names.chain_next Demo.shuffle fuel
         (Names.NamesState (Names.gen_at Demo.shuffle 0%nat 3)
            (Names.product (Names.pools (Names.gen_at Demo.shuffle 0%nat 3))))) ∧
  (∀ x, x ∈ Names.join <$> Names.stage Demo.shuffle 0%nat 1 →
     ∃ a c ls, split_dash x = a :: c :: ls ∧
               a ∈ Names.letters ∧ c ∈ Names.colours ∧
               length ls = 1%nat ∧ Forall (λ w, w ∈ Names.letters) ls).
Proof.
  exact (stage_names_shape Demo.shuffle demo_shuffle_perm 0%nat 1).
Defined.

(** A client that asks for a name, activates it, lets another consumer draw
    from [names], and asks again. *)
Lemma generate_name_distinct_witness :
  (∀ fuel issued self' p',
     run Demo.shuffle Demo.clock fuel
         [GenerateName; Activate "alpha-orange"; NextName; GenerateName]
         Demo.manager0 Demo.process0 = Ok (issued, self', p') →
     NoDup issued ∧ length issued = 2%nat) ∧
  (∀ fuel,
     (size (SessionManager.sessions Demo.manager0) + 4 + 2 ≤ fuel)%nat →
     ∃ issued self' p',
       run Demo.shuffle Demo.clock fuel
           [GenerateName; Activate "alpha-orange"; NextName; GenerateName]
           Demo.manager0 Demo.process0 = Ok (issued, self', p')).
Proof.
  apply (generate_name_distinct Demo.shuffle demo_shuffle_perm Demo.clock 0%nat
           [GenerateName; Activate "alpha-orange"; NextName; GenerateName]
           Demo.manager0 Demo.process0).
  apply Names.reachable_init.
Defined.

Example demo_run :
  (λ r, r.1.1) <$>
    (match run Demo.shuffle Demo.clock 6
             [GenerateName; Activate "alpha-orange"; NextName; GenerateName]
             Demo.manager0 Demo.process0 with
     | Ok r => Some r | _ => None end)
  = Some ["alpha-orange"; "alpha-green"].
Proof. by vm_compute. Qed.

(** [generate_name] on a manager that holds the next name of the sequence:
    the loop redraws once. *)
Example demo_generate_name :
  (λ r, r.1.1) <$>
    (match SessionManager.generate_name Demo.shuffle 3 Demo.manager1
             Demo.process0 with
     | Ok r => Some r | _ => None end)
  = Some "alpha-yellow".
Proof. by vm_compute. Qed.

Lemma generate_name_fresh_witness :
  (∀ fuel r self' p',
     SessionManager.generate_name Demo.shuffle fuel Demo.manager1 Demo.process0
       = Ok (r, self', p') →
     SessionManager.sessions Demo.manager1 !! r = None ∧ self' = Demo.manager1 ∧
     p_contexts p' = p_contexts Demo.process0 ∧
     p_current p' = p_current Demo.process0 ∧
     p_ticks p' = p_ticks Demo.process0) ∧
  (∀ fuel,
     (size (SessionManager.sessions Demo.manager1) + 2 ≤ fuel)%nat →
     ∃ r p',
       SessionManager.generate_name Demo.shuffle fuel Demo.manager1 Demo.process0
         = Ok (r, Demo.manager1, p') ∧
       SessionManager.sessions Demo.manager1 !! r = None).
Proof.
  apply (generate_name_fresh Demo.shuffle demo_shuffle_perm 0%nat
           Demo.manager1 Demo.process0).
  apply Names.reachable_init.
Defined.

Lemma generate_name_terminates_witness :
  (∀ fuel, (2 ≤ fuel)%nat →
     ∃ x st,
       Names.names_next Demo.shuffle fuel (p_names Demo.process0) = Some (x, st) ∧
       Names.reachable Demo.shuffle 0%nat st) ∧
  (∀ fuel n, (2 ≤ fuel)%nat →
     ∃ xs st,
       Names.draw Demo.shuffle fuel n (p_names Demo.process0) = Some (xs, st) ∧
       length xs = n) ∧
  (∀ fuel,
     (size (SessionManager.sessions Demo.manager1) + 2 ≤ fuel)%nat →
     ∃ r p',
       SessionManager.generate_name Demo.shuffle fuel Demo.manager1 Demo.process0
         = Ok (r, Demo.manager1, p') ∧
       SessionManager.sessions Demo.manager1 !! r = None ∧
       Names.reachable Demo.shuffle 0%nat (p_names p')).
Proof.
  apply (generate_name_terminates Demo.shuffle demo_shuffle_perm 0%nat
           Demo.manager1 Demo.process0).
  apply Names.reachable_init.
Defined.

(** Two activations of one identifier under the demonstration clock. *)
Lemma activate_twice_witness :
  ∃ self1 p1 self2 p2 s1 s2,
    SessionManager.activate Demo.clock "alpha-red" Demo.manager0 Demo.process0
      = Ok (self1, p1) ∧
    SessionManager.activate Demo.clock "alpha-red" self1 p1 = Ok (self2, p2) ∧
    length (p_contexts p1) = 1%nat ∧
    p_contexts p2 = p_contexts p1 ∧
    SessionManager.sessions self2 !! "alpha-red" = Some s2 ∧
    Session.context s2 = Session.context s1 ∧
    (Session.seen s1 < Session.seen s2)%Z.
Proof.
  destruct (activate_twice (rng:=nat) Demo.clock "alpha-red"
              Demo.manager0 Demo.process0)
    as (self1 & p1 & self2 & p2 & s1 & s2 & H1 & H2 & _ & [Hc _] & _ & Hs2
        & Hctx & Hp2 & _ & _ & Hseen).
  exists self1, p1, self2, p2, s1, s2. split_and!.
  - exact H1.
  - exact H2.
  - rewrite Hc. reflexivity.
  - exact Hp2.
  - rewrite Hs2. apply lookup_insert_eq.
  - exact Hctx.
  - apply Hseen. intros i j Hij. unfold Demo.clock. lia.
Defined.


Example demo_handle_header :
  (λ r, sent r.1.1) <$>
    (match SessionCookie.handle Demo.shuffle Demo.clock Demo.cpython 2
             Demo.request0 Demo.manager0 Demo.process0 with
     | Ok r => Some r | _ => None end)
  = Some [SendHeader "Set-Cookie" (HStr " session=alpha-orange; Path=/")].
Proof. by vm_compute. Qed.

(** A manager whose cookie name holds a blank: on a request without the
    cookie the filter draws a name, the jar refuses the key, and the
    [CookieError] escapes; nothing is activated and no header is sent. *)
Example demo_handle_illegal_name :
  SessionCookie.handle Demo.shuffle Demo.clock Demo.cpython 2 Demo.request0
    Demo.manager_blank Demo.process0 = Raise CookieError.
Proof. by vm_compute. Qed.





Example demo_post_statuses :
  (λ body, EventHandler.status_of
             (sent (EventHandler.handle_POST Demo.cpython Demo.loads "ev"
                      (Demo.post "7" body) Demo.process1).1.1))
    <$> ["{}"; "[1,2,3]"; "{"]
  = [Some 202%Z; Some 400%Z; Some 400%Z]
  ∧ EventHandler.status_of
      (sent (EventHandler.handle_POST Demo.cpython Demo.loads "ev"
               (Demo.post "2" "{}") Demo.process0).1.1) = Some 500%Z
  ∧ EventHandler.status_of
      (sent (EventHandler.handle_POST (rng:=nat) Demo.cpython Demo.loads "ev"
               Demo.request0 Demo.process1).1.1) = Some 411%Z.
Proof. by vm_compute. Qed.

(** Lengths the handler fails on after [int] has accepted them: one that
    does not fit [ssize_t], a negative one other than -1, and a body that
    exhausts the decoder's recursion. *)
Example demo_post_escapes :
  (λ r, (EventHandler.handle_POST Demo.cpython Demo.loads "ev" r
           Demo.process1).2)
    <$> [Demo.post "9223372036854775808" "{}"; Demo.post "-2" "{}";
         Demo.post "4" "[[[["; Demo.post "1_0" "{}"; Demo.post " 2 " "{}"]
  = [Some OverflowError; Some ValueError; Some RecursionError; None; None].
Proof. by vm_compute. Qed.

Lemma handle_POST_bad_length_witness :
  py_int Demo.cpython "12a" = None ∧
  EventHandler.handle_POST Demo.cpython Demo.loads "ev" (Demo.post "12a" "{}")
      Demo.process0
    = (Demo.post "12a" "{}", Demo.process0, Some ValueError).
Proof.
  apply (handle_POST_bad_length Demo.cpython Demo.loads "ev"
           (Demo.post "12a" "{}") Demo.process0 "12a");
    [reflexivity|right; reflexivity].
Defined.

(** * Further properties *)

(** ** The whole sequence of names *)

Section SequenceFacts.

Context {rng : Type}.
Variable shuffle : rng → list string → list string * rng.
Hypothesis shuffle_perm : ∀ g l, (shuffle g l).1 ≡ₚ l.
Variable g : rng.

Local Abbreviation stage := (Names.stage shuffle g).
Local Abbreviation history := (history shuffle g).

(** Successive draws extend the history by the tuples behind the names. *)
Lemma draw_history fuel n : ∀ drawn st xs st',
  history drawn st →
  Names.draw shuffle fuel n st = Some (xs, st') →
  ∃ ts, xs = Names.join <$> ts ∧ history (drawn ++ ts) st'.
Proof.
  induction n as [|n IH]; intros drawn st xs st' Hh Hd; simpl in Hd.
  - injection Hd as <- <-. exists []. by rewrite app_nil_r.
  - destruct (Names.names_next shuffle fuel st) as [[x st1]|] eqn:E; [|done].
    destruct (Names.draw shuffle fuel n st1) as [[xs1 st2]|] eqn:E1; [|done].
    injection Hd as <- <-.
    destruct (names_next_history shuffle shuffle_perm g _ _ _ _ _ Hh E)
      as (t & -> & Hh1 & _).
    destruct (IH _ _ _ _ Hh1 E1) as (ts & -> & Hh2).
    exists (t :: ts). split; [done|]. by rewrite <- app_assoc in Hh2.
Qed.

Lemma stages_handed K :
  seq 0 (S K) ≫= handed shuffle g = seq 0 K ≫= stage.
Proof.
  induction K as [|K IH]; [done|].
  rewrite (seq_S (S K)), bind_app, IH, (seq_S K), bind_app. simpl.
  by rewrite !app_nil_r.
Qed.

Lemma stages_prefix m K :
  (m ≤ K)%nat → (seq 0 m ≫= stage) `prefix_of` (seq 0 K ≫= stage).
Proof.
  intros Hle. replace K with (m + (K - m))%nat by lia.
  rewrite seq_app, bind_app. by apply prefix_app_r.
Qed.

Lemma prefix_as_take {A} (l1 l2 : list A) :
  l1 `prefix_of` l2 → l1 = take (length l1) l2.
Proof. intros [k ->]. by rewrite take_app_length. Qed.

(** What has been drawn is an initial part of the stages laid end to end. *)
Lemma history_stages drawn st K :
  history drawn st →
  (length drawn ≤ length (seq 0 K ≫= stage))%nat →
  drawn = take (length drawn) (seq 0 K ≫= stage).
Proof.
  intros (m & pre & _ & Hcur & ->) Hlen.
  assert (((seq 0 m ≫= handed shuffle g) ++ pre)
            `prefix_of` (seq 0 m ≫= stage)) as Hpre.
  { rewrite <- stages_handed, (handed_through shuffle g m _ Hcur), app_assoc.
    by apply prefix_app_r. }
  destruct (Nat.le_gt_cases m K) as [HmK|HKm].
  - apply prefix_as_take. etrans; [exact Hpre|]. by apply stages_prefix.
  - apply prefix_as_take in Hpre.
    pose proof (prefix_as_take _ _ (stages_prefix K m ltac:(lia))) as HK.
    rewrite HK, take_take, Nat.min_l by lia. exact Hpre.
Qed.

(** X1: the names come out in stage order: all of stage 0, then all of
    stage 1, and so on.  The first [n] names drawn are the first [n] of the
    stages laid end to end. *)
Theorem names_in_stage_order (fuel n K : nat) :
  (2 ≤ fuel)%nat →
  (n ≤ length (seq 0 K ≫= stage))%nat →
  ∃ st, Names.draw shuffle fuel n (Names.names_init g) =
          Some (Names.join <$> take n (seq 0 K ≫= stage), st).
Proof.
  intros Hfuel Hn.
  destruct (draw_total shuffle shuffle_perm g fuel n [] _
              (history_init shuffle g) Hfuel) as (xs & st & Hd & Hlen).
  destruct (draw_history _ _ _ _ _ _ (history_init shuffle g) Hd)
    as (ts & -> & Hh).
  rewrite length_fmap in Hlen. simpl in Hh. subst n.
  exists st. by rewrite <- (history_stages ts st K Hh Hn).
Qed.

(** X2: however many names are drawn, no two of them are equal. *)
Theorem names_all_distinct (fuel n : nat) :
  (2 ≤ fuel)%nat →
  ∃ xs st, Names.draw shuffle fuel n (Names.names_init g) = Some (xs, st) ∧
           length xs = n ∧ NoDup xs.
Proof.
  intros Hfuel.
  destruct (draw_total shuffle shuffle_perm g fuel n [] _
              (history_init shuffle g) Hfuel) as (xs & st & Hd & Hlen).
  exists xs, st. split_and!; [done..|].
  destruct (draw_history _ _ _ _ _ _ (history_init shuffle g) Hd)
    as (ts & -> & Hh).
  by apply (history_NoDup shuffle shuffle_perm g) in Hh.
Qed.

Lemma length_product_letters (l c l' : list string) k :
  length (Names.product (l :: c :: replicate k l')) =
    (length l * length c * length l' ^ k)%nat.
Proof.
  induction k as [|k IH].
  - change (Names.product (l :: c :: replicate 0 l'))
      with (Names.product_step (Names.product_step [[]] l) c).
    rewrite !length_product_step. simpl. lia.
  - rewrite replicate_S_end, !app_comm_cons, product_snoc, length_product_step,
      IH, Nat.pow_succ_r'. lia.
Qed.

(** X3: stage [k] holds [144 * 24^k] names. *)
Theorem length_stage (k : nat) : length (stage k) = (144 * 24 ^ k)%nat.
Proof.
  unfold Names.stage.
  rewrite (pools_gen_at shuffle), length_product_letters.
  destruct (gen_at_vocabulary shuffle shuffle_perm g (S k)) as [-> ->].
  reflexivity.
Qed.

Lemma name_chars_app a b :
  name_chars (a +:+ b) = name_chars a && name_chars b.
Proof.
  induction a as [|ch a IH]; [done|]. simpl. by rewrite IH, andb_assoc.
Qed.

Lemma name_chars_join t :
  Forall (λ w, name_chars w = true) t → name_chars (Names.join t) = true.
Proof.
  induction t as [|w t IH]; [done|]. intros [Hw Ht]%Forall_cons.
  destruct t as [|w' t]; [done|].
  change (Names.join (w :: w' :: t)) with (w +:+ "-" +:+ Names.join (w' :: t)).
  rewrite !name_chars_app, Hw, (IH Ht). reflexivity.
Qed.

Lemma vocabulary_name_chars :
  Forall (λ w, name_chars w = true) (Names.letters ++ Names.colours).
Proof. repeat constructor. Qed.

Lemma history_elem drawn st t :
  history drawn st → t ∈ drawn → ∃ k, t ∈ stage k.
Proof.
  intros (m & pre & _ & Hcur & ->) Hin.
  assert (t ∈ seq 0 (S m) ≫= handed shuffle g) as Hin'.
  { rewrite (handed_through shuffle g m _ Hcur), app_assoc.
    apply elem_of_app. by left. }
  apply list_elem_of_bind in Hin' as ([|k] & Ht & _); [by apply elem_of_nil in Ht|].
  by exists k.
Qed.

(** X4: every name [next(names)] returns is made of lower-case letters and
    the separator only, and splits at the separator into a letter, a colour
    and letters. *)
Theorem names_next_well_formed (fuel : nat) st x st' :
  Names.reachable shuffle g st →
  Names.names_next shuffle fuel st = Some (x, st') →
  name_chars x = true ∧
  ∃ a c ls, split_dash x = a :: c :: ls ∧
            a ∈ Names.letters ∧ c ∈ Names.colours ∧
            Forall (λ w, w ∈ Names.letters) ls.
Proof.
  intros [drawn Hh]%(reachable_history shuffle shuffle_perm g) Hnext.
  destruct (names_next_history shuffle shuffle_perm g _ _ _ _ _ Hh Hnext)
    as (t & -> & Hh1 & _).
  destruct (history_elem _ _ t Hh1) as [k Ht];
    [apply elem_of_app; right; by apply list_elem_of_singleton|].
  destruct (stage_tuple shuffle shuffle_perm g k t Ht) as [Hlen Hnd].
  rewrite split_join by (done || by destruct t).
  apply (elem_of_stage shuffle shuffle_perm g) in Ht
    as (a & c & ls & -> & Ha & Hc & _ & Hls).
  split; [|by exists a, c, ls].
  pose proof vocabulary_name_chars as Hv. rewrite Forall_forall in Hv.
  apply name_chars_join.
  constructor; [apply Hv, elem_of_app; by left|].
  constructor; [apply Hv, elem_of_app; by right|].
  eapply Forall_impl; [exact Hls|]. intros w Hw. apply Hv, elem_of_app. by left.
Qed.

End SequenceFacts.

(** ** More on the registry *)

Section RedrawFacts.

Context {rng : Type}.
Variable shuffle : rng → list string → list string * rng.
Hypothesis shuffle_perm : ∀ g l, (shuffle g l).1 ≡ₚ l.
Variable g : rng.

Implicit Types (self : SessionManager.t) (p : process rng).

(** The loop returns the last of the names it has seen; the others are
    keys. *)
Lemma redraw_draw gas fuel self : ∀ r0 st r st',
  SessionManager.redraw shuffle gas fuel self r0 st = Ok (r, st') →
  ∃ ys ks, Names.draw shuffle gas (length ys) st = Some (ys, st') ∧
           r0 :: ys = ks ++ [r] ∧
           Forall (λ x, is_Some (SessionManager.sessions self !! x)) ks.
Proof.
  induction fuel as [|fuel IH]; intros r0 st r st';
    rewrite redraw_unfold; destruct (decide _) as [Hin|Hout]; try done.
  - intros [= <- <-]. by exists [], [].
  - destruct (Names.names_next shuffle gas st) as [[r1 st1]|] eqn:E; [|done].
    intros (ys & ks & Hd & Heq & Hks)%IH.
    exists (r1 :: ys), (r0 :: ks). split_and!.
    + simpl. by rewrite E, Hd.
    + by rewrite Heq.
    + by constructor.
  - intros [= <- <-]. by exists [], [].
Qed.

(** X5: [generate_name] returns the first name of the sequence, from where
    [names] stands, that is not a key of the registry: the names it passes
    over are keys, there are at most as many of them as the registry has
    sessions, and [names] is left just behind the name returned. *)
Theorem generate_name_first_free (fuel : nat) self p r self' p' :
  Names.reachable shuffle g (p_names p) →
  SessionManager.generate_name shuffle fuel self p = Ok (r, self', p') →
  ∃ skipped,
    Names.draw shuffle fuel (S (length skipped)) (p_names p) =
      Some (skipped ++ [r], p_names p') ∧
    Forall (λ x, is_Some (SessionManager.sessions self !! x)) skipped ∧
    SessionManager.sessions self !! r = None ∧
    (length skipped ≤ size (SessionManager.sessions self))%nat.
Proof.
  intros [drawn Hh]%(reachable_history shuffle shuffle_perm g) Hg.
  pose proof (generate_name_returns_non_key _ _ _ _ _ _ _ Hg) as (Hr & _ & _).
  unfold SessionManager.generate_name in Hg.
  destruct (Names.names_next shuffle fuel (p_names p)) as [[r0 st0]|] eqn:E;
    [|done].
  destruct (SessionManager.redraw shuffle fuel fuel self r0 st0)
    as [[r1 st1]| |] eqn:Ere; try done.
  injection Hg as <- <- <-.
  destruct (redraw_draw _ _ _ _ _ _ _ Ere) as (ys & ks & Hd & Heq & Hks).
  assert (Names.draw shuffle fuel (S (length ks)) (p_names p) =
            Some (ks ++ [r1], st1)) as Hdraw.
  { assert (length ks = length ys) as ->.
    { apply (f_equal length) in Heq. rewrite length_app in Heq.
      simpl in Heq. lia. }
    simpl. by rewrite E, Hd, Heq. }
  exists ks. split_and!; [done..|].
  destruct (draw_history shuffle shuffle_perm g _ _ _ _ _ _ Hh Hdraw)
    as (ts & Hts & Hh').
  apply (history_NoDup shuffle shuffle_perm g) in Hh'.
  rewrite fmap_app, <- Hts in Hh'.
  apply NoDup_app in Hh' as (_ & _ & Hnd). apply NoDup_app in Hnd as (Hnd & _ & _).
  rewrite <- (size_list_to_set (C:=gset string) ks Hnd), <- size_dom.
  apply subseteq_size. intros x Hx%elem_of_list_to_set.
  rewrite Forall_forall in Hks. by apply elem_of_dom, Hks.
Qed.

End RedrawFacts.

Section ActivateFacts.

Context {rng : Type}.
Variable clock : nat → Z.

Implicit Types (self : SessionManager.t) (p : process rng).

Local Abbreviation activate := (SessionManager.activate clock).

(** X6: [activate] never fails, and it touches one entry only: the keys
    afterwards are the old keys and [name], every other entry is as it was,
    the contexts allocated before are all still there and unchanged, the
    cookie name and [names] are as before, and the current context is the
    one of [name]'s session. *)
Theorem activate_frame (name : string) self p :
  ∃ self' p' s',
    activate name self p = Ok (self', p') ∧
    SessionManager.sessions self' !! name = Some s' ∧
    p_current p' = Some (Session.context s') ∧
    dom (SessionManager.sessions self') =
      {[name]} ∪ dom (SessionManager.sessions self) ∧
    (∀ k, k ≠ name →
       SessionManager.sessions self' !! k = SessionManager.sessions self !! k) ∧
    p_contexts p `prefix_of` p_contexts p' ∧
    SessionManager.cookie self' = SessionManager.cookie self ∧
    p_names p' = p_names p.
Proof.
  destruct (SessionManager.sessions self !! name) as [s|] eqn:E.
  - rewrite (activate_present _ _ _ _ _ E). eexists _, _, _. split_and!.
    + done.
    + apply lookup_insert_eq.
    + done.
    + apply dom_insert_L.
    + intros k Hk. cbn. by rewrite lookup_insert_ne.
    + done.
    + done.
    + done.
  - rewrite (activate_absent _ _ _ _ E). eexists _, _, _. split_and!.
    + done.
    + apply lookup_insert_eq.
    + done.
    + apply dom_insert_L.
    + intros k Hk. cbn. by rewrite lookup_insert_ne.
    + by apply prefix_app_r.
    + done.
    + done.
Qed.

(** X7: the timestamps of the registry are readings of the clock, and stay
    so under [activate]; under a clock that never goes back, no timestamp of
    the registry ever decreases. *)
Theorem activate_seen (name : string) self p self' p' :
  seen_ok clock self p →
  activate name self p = Ok (self', p') →
  seen_ok clock self' p' ∧
  ((∀ i j, (i ≤ j)%nat → (clock i ≤ clock j)%Z) →
   ∀ k s s', SessionManager.sessions self !! k = Some s →
             SessionManager.sessions self' !! k = Some s' →
             (Session.seen s ≤ Session.seen s')%Z).
Proof.
  intros Hok Hact.
  destruct (SessionManager.sessions self !! name) as [s0|] eqn:E.
  - rewrite (activate_present _ _ _ _ _ E) in Hact. injection Hact as <- <-.
    split.
    + intros k s. cbn. destruct (decide (k = name)) as [->|Hne].
      * rewrite lookup_insert_eq. intros [= <-]. exists (p_ticks p).
        split; [lia|done].
      * rewrite lookup_insert_ne by done. intros (i & Hi & Hs)%Hok.
        exists i. split; [lia|done].
    + intros Hmono k s s' Hs. cbn. destruct (decide (k = name)) as [->|Hne].
      * rewrite lookup_insert_eq. intros [= <-]. cbn.
        destruct (Hok _ _ Hs) as (i & Hi & ->). apply Hmono. lia.
      * rewrite lookup_insert_ne by done. rewrite Hs. by intros [= <-].
  - rewrite (activate_absent _ _ _ _ E) in Hact. injection Hact as <- <-.
    split.
    + intros k s. cbn. destruct (decide (k = name)) as [->|Hne].
      * rewrite lookup_insert_eq. intros [= <-]. exists (S (p_ticks p)).
        split; [lia|done].
      * rewrite lookup_insert_ne by done. intros (i & Hi & Hs)%Hok.
        exists i. split; [lia|done].
    + intros Hmono k s s' Hs. cbn. destruct (decide (k = name)) as [->|Hne].
      * congruence.
      * rewrite lookup_insert_ne by done. rewrite Hs. by intros [= <-].
Qed.

End ActivateFacts.

(** ** Requests in sequence *)

Section ServerFacts.

Context {rng : Type}.
Variable shuffle : rng → list string → list string * rng.
Variable clock : nat → Z.
Variable py : python.
Variable loads : list Byte.byte → loaded.

Implicit Types (self : SessionManager.t) (p : process rng) (req : request).

Local Abbreviation activate := (SessionManager.activate clock).
Local Abbreviation generate_name := (SessionManager.generate_name shuffle).
Local Abbreviation handle := (SessionCookie.handle shuffle clock py).
Local Abbreviation handle_POST := (EventHandler.handle_POST py loads).
Local Abbreviation serve := (serve shuffle clock py loads).

(** The two ways through the filter. *)
Lemma handle_cases fuel req self p req' self' p' :
  handle fuel req self p = Ok (req', self', p') →
  ∃ v p1,
    activate v self p1 = Ok (self', p') ∧
    ((cookies req !! SessionManager.cookie self = None ∧
      generate_name fuel self p = Ok (v, self, p1) ∧
      req' = send (SendHeader "Set-Cookie"
                     (HStr (morsel_output (SessionManager.cookie self)
                                          (MkMorsel v "/"))))
                  (set_cookies (<[SessionManager.cookie self := MkMorsel v "/"]>
                                  (cookies req)) req)) ∨
     (∃ m, cookies req !! SessionManager.cookie self = Some m ∧
           v = m_value m ∧ p1 = p ∧ req' = req)).
Proof.
  unfold SessionCookie.handle.
  destruct (cookies req !! SessionManager.cookie self) as [m|] eqn:E.
  - destruct (activate (m_value m) self p) as [[self1 p1]| |] eqn:Ea; try done.
    intros [= <- <- <-]. exists (m_value m), p. split; [done|]. right. by exists m.
  - destruct (generate_name fuel self p) as [[[v self1] p1]| |] eqn:Eg; try done.
    cbn [result_bind].
    destruct (cookie_key_ok py (SessionManager.cookie self)); [|done].
    rewrite alter_insert_eq, lookup_insert_eq. cbn [m_value].
    destruct (generate_name_returns_non_key _ _ _ _ _ _ _ Eg) as (_ & -> & _).
    destruct (activate v self p1) as [[self2 p2]| |] eqn:Ea; try done.
    intros [= <- <- <-]. exists v, p1. split; [done|]. by left.
Qed.

(** What a POST can do to the process: nothing, or hand one event to the
    current context while answering 202. *)
Lemma handle_POST_cases ev req p :
  ∃ req' p' e,
    handle_POST ev req p = (req', p', e) ∧
    headers req' = headers req ∧ cookies req' = cookies req ∧
    (p' = p ∨
     ∃ data, e = None ∧ is_mapping data = true ∧
             new_event ev data p = Some p' ∧
             sent req' = sent req ++
               [SendResponse 202;
                SendHeader "content-type" (HStr "text/plain; charset=utf-8");
                SendHeader "content-length" (HInt 0);
                EndHeaders]).
Proof.
  unfold EventHandler.handle_POST.
  destruct (header_get "content-length" (headers req)) as [v|];
    [|eexists _, _, _; split_and!; [done..|by left]].
  destruct (py_int py v) as [n|];
    [|eexists _, _, _; split_and!; [done..|by left]].
  destruct (rfile_read py n (rfile req)) as [e|[data rest]];
    [eexists _, _, _; split_and!; [done..|by left]|].
  destruct (loads data) as [structured|msg|];
    [|eexists _, _, _; split_and!; [done..|by left]..].
  destruct (is_mapping structured) eqn:Emap; cbn [negb];
    [|eexists _, _, _; split_and!; [done..|by left]].
  destruct (new_event ev structured p) as [p1|] eqn:Eev;
    [|eexists _, _, _; split_and!; [done..|by left]].
  eexists _, _, _. split_and!; [done..|]. right. exists structured.
  split_and!; [done..|]. cbn. by rewrite <- !app_assoc.
Qed.

(** A property kept by the three things a step can do (advance [names],
    activate an identifier, deliver an event) is kept by every sequence of
    steps. *)
Lemma serve_invariant (P : SessionManager.t → process rng → Prop) :
  (∀ self p st, P self p → P self (set_names st p)) →
  (∀ name self p self' p',
     P self p → activate name self p = Ok (self', p') → P self' p') →
  (∀ ev data self p p',
     P self p → new_event ev data p = Some p' → P self p') →
  ∀ fuel steps self p self' p',
    P self p → serve fuel steps self p = Ok (self', p') → P self' p'.
Proof.
  intros Hnames Hact Hev fuel steps.
  induction steps as [|s steps IH]; intros self p self' p' HP Hserve.
  - by injection Hserve as <- <-.
  - simpl in Hserve.
    destruct (serve_step shuffle clock py loads fuel s self p)
      as [[self1 p1]| |] eqn:Estep; try done.
    simpl in Hserve. apply (IH _ _ _ _) in Hserve; [done|].
    clear IH Hserve. destruct s as [req|ev req|[|name|]]; simpl in Estep.
    + destruct (handle fuel req self p) as [[[req1 self2] p2]| |] eqn:Eh;
        try done.
      injection Estep as <- <-.
      destruct (handle_cases _ _ _ _ _ _ _ Eh) as (v & p0 & Ea & Hcase).
      apply (Hact _ _ _ _ _) in Ea; [done|].
      destruct Hcase as [(_ & Hg & _)|(m & _ & _ & -> & _)]; [|done].
      destruct (generate_name_returns_non_key _ _ _ _ _ _ _ Hg) as (_ & _ & ->).
      by apply Hnames.
    + destruct (handle_POST_cases ev req p)
        as (req' & p0 & e & Heq & _ & _ & Hcase).
      rewrite Heq in Estep. destruct e as [e|]; [done|].
      injection Estep as <- <-.
      destruct Hcase as [->|(data & _ & _ & Hnew & _)]; [done|].
      by apply (Hev _ _ _ _ _ HP Hnew).
    + destruct (generate_name fuel self p) as [[[v self2] p2]| |] eqn:Eg;
        try done.
      injection Estep as <- <-.
      destruct (generate_name_returns_non_key _ _ _ _ _ _ _ Eg) as (_ & -> & ->).
      by apply Hnames.
    + by apply (Hact _ _ _ _ _ HP Estep).
    + destruct (Names.names_next shuffle fuel (p_names p)) as [[x st]|]; [|done].
      injection Estep as <- <-. by apply Hnames.
Qed.

(** What [activate] keeps and what it establishes. *)
Lemma activate_keeps name self p self' p' :
  activate name self p = Ok (self', p') →
  SessionManager.cookie self' = SessionManager.cookie self ∧
  p_names p' = p_names p ∧
  (∀ k s, SessionManager.sessions self !! k = Some s →
     ∃ s', SessionManager.sessions self' !! k = Some s' ∧
           Session.context s' = Session.context s) ∧
  (∀ h c, p_contexts p !! h = Some c → p_contexts p' !! h = Some c) ∧
  (∃ s', SessionManager.sessions self' !! name = Some s' ∧
         p_current p' = Some (Session.context s')).
Proof.
  intros Hact. destruct (SessionManager.sessions self !! name) as [s0|] eqn:E.
  - rewrite (activate_present _ _ _ _ _ E) in Hact. injection Hact as <- <-.
    split_and!; [done..| |done|].
    + intros k s Hs. cbn. destruct (decide (k = name)) as [->|Hne].
      * rewrite lookup_insert_eq. eexists. split; [done|]. cbn. congruence.
      * rewrite lookup_insert_ne by done. eauto.
    + eexists. split; [apply lookup_insert_eq|done].
  - rewrite (activate_absent _ _ _ _ E) in Hact. injection Hact as <- <-.
    split_and!; [done..| | |].
    + intros k s Hs. cbn. destruct (decide (k = name)) as [->|Hne];
        [congruence|]. rewrite lookup_insert_ne by done. eauto.
    + intros h c Hc. cbn. by apply lookup_app_l_Some.
    + eexists. split; [apply lookup_insert_eq|done].
Qed.

Lemma activate_length name self p self' p' :
  activate name self p = Ok (self', p') →
  (length (p_contexts p) ≤ length (p_contexts p'))%nat.
Proof.
  intros Hact. destruct (SessionManager.sessions self !! name) as [s0|] eqn:E.
  - rewrite (activate_present _ _ _ _ _ E) in Hact. by injection Hact as <- <-.
  - rewrite (activate_absent _ _ _ _ E) in Hact. injection Hact as <- <-.
    cbn. rewrite length_app. lia.
Qed.

(** What the delivery of an event keeps. *)
Lemma new_event_keeps ev data p p' :
  new_event ev data p = Some p' →
  p_names p' = p_names p ∧ p_current p' = p_current p ∧
  p_ticks p' = p_ticks p ∧
  length (p_contexts p') = length (p_contexts p) ∧
  ∃ h, p_current p = Some h ∧
       p_contexts p' = alter (ctx_receive (ev, data)) h (p_contexts p).
Proof.
  unfold new_event. destruct (p_current p) as [h|] eqn:E; [|done].
  intros [= <-]. cbn. split_and!; [done..|apply length_alter|]. by exists h.
Qed.





(** X9: nothing is ever taken away.  After any sequence of steps the
    manager's cookie name is the same, every session that was registered
    still is and has the context it had, no fewer contexts are allocated
    than before, and a current context, once there is one, is never lost. *)
Theorem serve_append_only (fuel : nat) (steps : list step) self p self' p' :
  serve fuel steps self p = Ok (self', p') →
  SessionManager.cookie self' = SessionManager.cookie self ∧
  (∀ k s, SessionManager.sessions self !! k = Some s →
     ∃ s', SessionManager.sessions self' !! k = Some s' ∧
           Session.context s' = Session.context s) ∧
  (length (p_contexts p) ≤ length (p_contexts p'))%nat ∧
  (is_Some (p_current p) → is_Some (p_current p')).
Proof.
  apply (serve_invariant (λ self1 p1,
    SessionManager.cookie self1 = SessionManager.cookie self ∧
    (∀ k s, SessionManager.sessions self !! k = Some s →
       ∃ s', SessionManager.sessions self1 !! k = Some s' ∧
             Session.context s' = Session.context s) ∧
    (length (p_contexts p) ≤ length (p_contexts p1))%nat ∧
    (is_Some (p_current p) → is_Some (p_current p1)))).
  - by intros self0 p0 st.
  - intros name self0 p0 self1 p1 (Hck & Hs & Hc & Hcur) Hact.
    pose proof (activate_length _ _ _ _ _ Hact) as Hlen.
    destruct (activate_keeps _ _ _ _ _ Hact)
      as (Hck' & _ & Hs' & _ & s' & _ & Hcur').
    split_and!.
    + congruence.
    + intros k s (s0 & Hs0 & <-)%Hs. by apply Hs'.
    + lia.
    + intros _. by rewrite Hcur'.
  - intros ev data self0 p0 p1 (Hck & Hs & Hc & Hcur) Hnew.
    destruct (new_event_keeps _ _ _ _ Hnew) as (_ & Hcur' & _ & Hl & _).
    split_and!; [done..|lia|by rewrite Hcur'].
  - split_and!; [done| |done|done].
    intros k s Hs. by exists s.
Qed.





(** X12: a POST changes the process only when it is answered 202, and then
    only by one event handed to the current context: whatever the request,
    [names], the current context, the clock and the number of contexts are
    as before, the request's headers and jar are untouched, and unless the
    status sent is 202 the process is exactly as it was. *)
Theorem handle_POST_effect (ev : string) req p :
  ∃ req' p' e,
    handle_POST ev req p = (req', p', e) ∧
    headers req' = headers req ∧ cookies req' = cookies req ∧
    p_names p' = p_names p ∧ p_current p' = p_current p ∧
    p_ticks p' = p_ticks p ∧
    length (p_contexts p') = length (p_contexts p) ∧
    (EventHandler.status_of (drop (length (sent req)) (sent req'))
       ≠ Some 202%Z → p' = p).
Proof.
  destruct (handle_POST_cases ev req p) as (req' & p' & e & Heq & Hh & Hc & Hcase).
  exists req', p', e. destruct Hcase as [->|(data & _ & _ & Hnew & Hsent)].
  - by split_and!.
  - destruct (new_event_keeps _ _ _ _ Hnew) as (Hn & Hcur & Ht & Hl & _).
    split_and!; [done..|]. intros Hst. exfalso. apply Hst.
    by rewrite Hsent, drop_app_length.
Qed.

(** X13: the filter takes any cookie value at its word.  A request that
    brings a value the registry has never seen is let through with nothing
    sent, and a session is registered under that very value, with a new
    started context of that name as the current one. *)
Theorem handle_unknown_cookie (fuel : nat) req self p (m : Morsel) :
  cookies req !! SessionManager.cookie self = Some m →
  SessionManager.sessions self !! m_value m = None →
  ∃ self' p' s,
    handle fuel req self p = Ok (req, self', p') ∧
    SessionManager.sessions self' !! m_value m = Some s ∧
    size (SessionManager.sessions self') = S (size (SessionManager.sessions self)) ∧
    p_contexts p' = p_contexts p ++ [MkContext (m_value m) true []] ∧
    Session.context s = length (p_contexts p) ∧
    p_current p' = Some (length (p_contexts p)).
Proof.
  intros Hm Hnone. unfold SessionCookie.handle. rewrite Hm.
  rewrite (activate_absent _ _ _ _ Hnone). cbn [result_bind].
  eexists _, _, _. split_and!; [done|apply lookup_insert_eq| |done..].
  cbn. by rewrite map_size_insert_None.
Qed.

(** X14: a request without the cookie always gets a session of its own:
    the value issued was not a key, the registry has one session more, and a
    new context, started and keyed by that value, has been allocated for it
    and made current. *)
Theorem handle_first_visit (fuel : nat) req self p req' self' p' :
  cookies req !! SessionManager.cookie self = None →
  handle fuel req self p = Ok (req', self', p') →
  ∃ v s,
    cookies req' !! SessionManager.cookie self = Some (MkMorsel v "/") ∧
    SessionManager.sessions self !! v = None ∧
    SessionManager.sessions self' !! v = Some s ∧
    size (SessionManager.sessions self') = S (size (SessionManager.sessions self)) ∧
    p_contexts p' = p_contexts p ++ [MkContext v true []] ∧
    Session.context s = length (p_contexts p) ∧
    p_current p' = Some (length (p_contexts p)).
Proof.
  intros Habs Hh.
  destruct (handle_cases _ _ _ _ _ _ _ Hh) as (v & p0 & Ea & Hcase).
  destruct Hcase as [(_ & Hg & ->)|(m & Hm & _)]; [|congruence].
  destruct (generate_name_returns_non_key _ _ _ _ _ _ _ Hg) as (Hnone & _ & Hp0).
  rewrite (activate_absent _ _ _ _ Hnone) in Ea. injection Ea as <- <-.
  rewrite Hp0. exists v. eexists.
  split_and!; [apply lookup_insert_eq|done|apply lookup_insert_eq| |done..].
  cbn. by rewrite map_size_insert_None.
Qed.




End ServerFacts.

Section ServerTotal.

Context {rng : Type}.
Variable shuffle : rng → list string → list string * rng.
Hypothesis shuffle_perm : ∀ g l, (shuffle g l).1 ≡ₚ l.
Variable clock : nat → Z.
Variable py : python.
Variable loads : list Byte.byte → loaded.
Variable g : rng.

Implicit Types (self : SessionManager.t) (p : process rng).

Local Abbreviation history := (history shuffle g).





End ServerTotal.

(** ** The further properties at work *)

Lemma names_in_stage_order_witness :
  ∃ st, Names.draw Demo.shuffle 2 150 (Names.names_init 0%nat) =
          Some (Names.join <$>
                  take 150 (seq 0 2 ≫= Names.stage Demo.shuffle 0%nat), st).
Proof.
  apply (names_in_stage_order Demo.shuffle demo_shuffle_perm 0%nat 2 150 2).
  - lia.
  - apply Nat.leb_le. by vm_compute.
Defined.

Lemma names_all_distinct_witness :
  ∃ xs st,
    Names.draw Demo.shuffle 2 200 (Names.names_init 0%nat) = Some (xs, st) ∧
    length xs = 200%nat ∧ NoDup xs.
Proof.
  apply (names_all_distinct Demo.shuffle demo_shuffle_perm 0%nat 2 200). lia.
Defined.

Lemma length_stage_witness :
  length (Names.stage Demo.shuffle 0%nat 1) = (144 * 24 ^ 1)%nat.
Proof. exact (length_stage Demo.shuffle demo_shuffle_perm 0%nat 1). Defined.

Lemma names_next_well_formed_witness :
  match Names.names_next Demo.shuffle 2 (Names.names_init 0%nat) with
  | Some (x, _) =>
      name_chars x = true ∧
      ∃ a c ls, split_dash x = a :: c :: ls ∧
                a ∈ Names.letters ∧ c ∈ Names.colours ∧
                Forall (λ w, w ∈ Names.letters) ls
  | None => False
  end.
Proof.
  destruct (Names.names_next Demo.shuffle 2 (Names.names_init 0%nat))
    as [[x st']|] eqn:E.
  - exact (names_next_well_formed Demo.shuffle demo_shuffle_perm 0%nat 2 _ x st'
             (Names.reachable_init _ _ _) E).
  - by vm_compute in E.
Defined.

Lemma generate_name_first_free_witness :
  match SessionManager.generate_name Demo.shuffle 3 Demo.manager1
          Demo.process0 with
  | Ok (r, _, p') =>
      ∃ skipped,
        Names.draw Demo.shuffle 3 (S (length skipped)) (p_names Demo.process0) =
          Some (skipped ++ [r], p_names p') ∧
        Forall (λ x, is_Some (SessionManager.sessions Demo.manager1 !! x))
               skipped ∧
        SessionManager.sessions Demo.manager1 !! r = None ∧
        (length skipped ≤ size (SessionManager.sessions Demo.manager1))%nat
  | _ => False
  end.
Proof.
  destruct (SessionManager.generate_name Demo.shuffle 3 Demo.manager1
              Demo.process0) as [[[r self'] p']| |] eqn:E.
  - exact (generate_name_first_free Demo.shuffle demo_shuffle_perm 0%nat 3
             Demo.manager1 Demo.process0 r self' p'
             (Names.reachable_init _ _ _) E).
  - by vm_compute in E.
  - by vm_compute in E.
Defined.

Lemma demo_seen_ok : seen_ok Demo.clock Demo.manager1 Demo.process1.
Proof.
  intros k s Hs. cbn in Hs. apply lookup_singleton_Some in Hs as [<- <-].
  exists 1%nat. split; [simpl; lia|done].
Qed.

Lemma activate_seen_witness :
  match SessionManager.activate Demo.clock "alpha-orange" Demo.manager1
          Demo.process1 with
  | Ok (self', p') =>
      seen_ok Demo.clock self' p' ∧
      ((∀ i j, (i ≤ j)%nat → (Demo.clock i ≤ Demo.clock j)%Z) →
       ∀ k s s', SessionManager.sessions Demo.manager1 !! k = Some s →
                 SessionManager.sessions self' !! k = Some s' →
                 (Session.seen s ≤ Session.seen s')%Z)
  | _ => False
  end.
Proof.
  destruct (SessionManager.activate Demo.clock "alpha-orange" Demo.manager1
              Demo.process1) as [[self' p']| |] eqn:E.
  - exact (activate_seen Demo.clock "alpha-orange" Demo.manager1 Demo.process1
             self' p' demo_seen_ok E).
  - by vm_compute in E.
  - by vm_compute in E.
Defined.



(** The sample steps leave two sessions, each with its context, and the
    event with the first visitor's context. *)
Example demo_serve :
  (λ r, (p_contexts r.2, p_current r.2)) <$>
    (match serve Demo.shuffle Demo.clock Demo.cpython Demo.loads 6 Sample.steps
             Demo.manager0 Demo.process0 with
     | Ok r => Some r | _ => None end)
  = Some ([MkContext "alpha-orange" true [("ev", JObject [])];
           MkContext "guest" true []], Some 0%nat).
Proof. by vm_compute. Qed.

Lemma serve_append_only_witness :
  match serve Demo.shuffle Demo.clock Demo.cpython Demo.loads 6 Sample.steps
          Demo.manager1 Demo.process1 with
  | Ok (self', p') =>
      SessionManager.cookie self' = SessionManager.cookie Demo.manager1 ∧
      (∀ k s, SessionManager.sessions Demo.manager1 !! k = Some s →
         ∃ s', SessionManager.sessions self' !! k = Some s' ∧
               Session.context s' = Session.context s) ∧
      (length (p_contexts Demo.process1) ≤ length (p_contexts p'))%nat ∧
      (is_Some (p_current Demo.process1) → is_Some (p_current p'))
  | _ => False
  end.
Proof.
  destruct (serve Demo.shuffle Demo.clock Demo.cpython Demo.loads 6 Sample.steps
              Demo.manager1 Demo.process1) as [[self' p']| |] eqn:E.
  - exact (serve_append_only Demo.shuffle Demo.clock Demo.cpython Demo.loads 6 Sample.steps
             Demo.manager1 Demo.process1 self' p' E).
  - by vm_compute in E.
  - by vm_compute in E.
Defined.




Lemma handle_unknown_cookie_witness :
  ∃ self' p' s,
    SessionCookie.handle Demo.shuffle Demo.clock Demo.cpython 0 (Sample.returning "forged")
        Demo.manager0 Demo.process0
      = Ok (Sample.returning "forged", self', p') ∧
    SessionManager.sessions self' !! "forged" = Some s ∧
    size (SessionManager.sessions self') = 1%nat ∧
    p_contexts p' = [MkContext "forged" true []] ∧
    Session.context s = 0%nat ∧
    p_current p' = Some 0%nat.
Proof.
  exact (handle_unknown_cookie Demo.shuffle Demo.clock Demo.cpython 0
           (Sample.returning "forged") Demo.manager0 Demo.process0
           (MkMorsel "forged" "") (lookup_singleton_eq _ _) (lookup_empty _)).
Defined.

Lemma handle_first_visit_witness :
  match SessionCookie.handle Demo.shuffle Demo.clock Demo.cpython 3 Demo.request0
          Demo.manager1 Demo.process1 with
  | Ok (req', self', p') =>
      ∃ v s,
        cookies req' !! SessionManager.cookie Demo.manager1
          = Some (MkMorsel v "/") ∧
        SessionManager.sessions Demo.manager1 !! v = None ∧
        SessionManager.sessions self' !! v = Some s ∧
        size (SessionManager.sessions self')
          = S (size (SessionManager.sessions Demo.manager1)) ∧
        p_contexts p' = p_contexts Demo.process1 ++ [MkContext v true []] ∧
        Session.context s = length (p_contexts Demo.process1) ∧
        p_current p' = Some (length (p_contexts Demo.process1))
  | _ => False
  end.
Proof.
  destruct (SessionCookie.handle Demo.shuffle Demo.clock Demo.cpython 3 Demo.request0
              Demo.manager1 Demo.process1) as [[[req' self'] p']| |] eqn:E;
    [|by vm_compute in E..].
  exact (handle_first_visit Demo.shuffle Demo.clock Demo.cpython 3 Demo.request0
           Demo.manager1 Demo.process1 req' self' p' (lookup_empty _) E).
Defined.

